(** * The typings installer worker (src/typingsInstaller/nodeTypingsInstaller.ts)

    A shallow embedding of the Node typings installer: the file logger
    [FileLog], the registry loader [loadTypesRegistryFile], the command
    executor [execFileSyncAndLog], the install worker [installWorker], the
    project root resolver [getDirectoryOfPackageJson], the constructor of
    [NodeTypingsInstaller] and the message handler registered by [listen].

    The code is effectful (it appends to a log file, launches processes,
    sends messages) and it can raise.  It is embedded in a state and
    exception monad over an explicit machine state that records every call
    of an outside primitive in a trace. *)

From stdpp Require Import base option list strings gmap pretty.
From Stdlib Require Import Ascii Lia ZArith.
From Stdlib Require String.

Set Default Proof Using "Type".

(** ** JavaScript values used by the installer *)

Definition LF : ascii := "010"%char.
Definition CR : ascii := "013"%char.
Definition space : ascii := " "%char.
Definition dquote : ascii := "034"%char.
Definition dollar : ascii := "$"%char.

(** A thrown [Error]: its [name], its [message] and its [stack]. *)
Record JsError := mkJsError { name : string; message : string; stack : string }.

(** [`${e}`] for an [Error]: [Error.prototype.toString]. *)
Definition Error_toString (e : JsError) : string :=
  if String.eqb (name e) EmptyString then message e
  else if String.eqb (message e) EmptyString then name e
  else name e +:+ ": " +:+ message e.

(** The outcome of evaluating JavaScript code: a value or a throw. *)
Inductive Completion (A : Type) :=
| Normal (a : A)
| Throw (e : JsError).
Arguments Normal {A} a.
Arguments Throw {A} e.

#[local] Set Warnings "-register-all".

(** A value produced by [JSON.parse].  A number keeps its lexeme: the
    installer never computes with one. *)
Inductive json :=
| JNull
| JBool (b : bool)
| JNum (lexeme : string)
| JStr (s : string)
| JArr (items : list json)
| JObj (props : gmap string json).

(** ** [String.prototype.replace] with the pattern [/\r?\n/]

    The pattern carries no [g] flag, so only the leftmost match is
    replaced.  [match_newline s] splits [s] at that match into the text
    before it, the matched text and the text after it. *)
Definition starts_with (c : ascii) (s : string) : bool :=
  match s with
  | String d _ => Ascii.eqb d c
  | EmptyString => false
  end.

Definition string_tail (s : string) : string :=
  match s with
  | String _ rest => rest
  | EmptyString => EmptyString
  end.

Fixpoint match_newline (s : string) : option (string * string * string) :=
  match s with
  | EmptyString => None
  | String c rest =>
      if Ascii.eqb c LF
      then Some (EmptyString, String LF EmptyString, rest)
      else if Ascii.eqb c CR && starts_with LF rest
      then Some (EmptyString, String CR (String LF EmptyString), string_tail rest)
      else
        match match_newline rest with
        | Some (pre, m, post) => Some (String c pre, m, post)
        | None => None
        end
  end.

(** [GetSubstitution] of ECMAScript for a pattern without capture groups:
    in the replacement text [$$] stands for a dollar sign, [$&] for the
    matched text, [$`] for the text before the match and [$'] for the text
    after it; any other [$] is kept as it is. *)
Fixpoint GetSubstitution (matched before after replacement : string) : string :=
  match replacement with
  | EmptyString => EmptyString
  | String c rest =>
      if Ascii.eqb c dollar then
        match rest with
        | String d rest' =>
            if Ascii.eqb d dollar
            then String dollar (GetSubstitution matched before after rest')
            else if Ascii.eqb d "&"%char
            then matched +:+ GetSubstitution matched before after rest'
            else if Ascii.eqb d "`"%char
            then before +:+ GetSubstitution matched before after rest'
            else if Ascii.eqb d "'"%char
            then after +:+ GetSubstitution matched before after rest'
            else String c (GetSubstitution matched before after rest)
        | EmptyString => String c EmptyString
        end
      else String c (GetSubstitution matched before after rest)
  end.

(** [str.replace(/\r?\n/, replacement)] *)
Definition replace_newline (str replacement : string) : string :=
  match match_newline str with
  | Some (pre, m, post) => pre +:+ GetSubstitution m pre post replacement +:+ post
  | None => str
  end.

(** [indent] (lines 248-250):
    [`${newline}    ` + str.replace(/\r?\n/, `${newline}    `)] *)
Definition indent (newline str : string) : string :=
  (newline +:+ "    ") +:+ replace_newline str (newline +:+ "    ").

Definition nl : string := String LF EmptyString.
Definition crnl : string := String CR (String LF EmptyString).

(** ** Messages

    Requests and responses are the tagged unions of the protocol.  The
    fields the installer itself never looks at are kept as one JSON
    payload. *)
Inductive Request :=
| DiscoverTypings (payload : json)
| CloseProject (payload : json)
| TypesRegistryRequest
| InstallPackageRequest (fileName packageName projectName : string)
                        (projectRootPath : option string)
| InspectValueRequest (fileNameToRequire : string).

Inductive Response :=
| InitializationFailedResponse (msg : string)
| TypingsDiscoveredResponse (payload : json)
| ProjectClosedResponse (payload : json)
| TypesRegistryResponse (registry : gmap string json)
| PackageInstalledResponse (projectName : string) (success : bool) (msg : string)
| InspectValueResponse (result : json).

(** What [child_process.execFileSync] throws.  The code reads [stdout] and
    [stderr] off the thrown value, whatever it is: each is a string or is
    missing ([undefined] or [null]). *)
Record ExecError := mkExecError {
  exec_error : JsError;
  exec_stdout : option string;
  exec_stderr : option string
}.

Inductive ExecOutcome :=
| ExecReturn (stdout : string)
| ExecThrow (e : ExecError).

(** Calls that leave the process, in the order they were made.  A process
    launch is synchronous: its event carries how it ended. *)
Inductive Event :=
| AppendFile (file content : string)
| ExecFile (file : string) (args : list string) (cwd : string) (outcome : ExecOutcome)
| Send (response : Response).

(** ** The outside of the source file

    [Platform W] is what Node.js and [sys] provide over a world [W] (the
    file system, the clock, other processes). *)
Class Platform (W : Type) := {
  (** [fs.appendFileSync(file, content)] *)
  fs_appendFileSync : string → string → W → W * Completion unit;
  (** [child_process.execFileSync(file, args, { cwd, encoding })] *)
  child_process_execFileSync : string → list string → string → W → W * ExecOutcome;
  (** [Date.now()], in milliseconds *)
  Date_now : W → W * Z;
  (** [JSON.parse(text)] and [JSON.stringify(value)] *)
  JSON_parse : string → Completion json;
  stringify_response : Response → string;
  stringify_names : list string → string;
  (** the [TypeError] raised by reading property [p] of [undefined] or [null] *)
  TypeError_property : string → JsError;
  (** [path.basename], [path.dirname], [path.join] of two parts *)
  path_basename : string → string;
  path_dirname : string → string;
  path_join : string → string → string;
  (** [process.argv[0]] and [process.pid] (printed) *)
  process_argv0 : string;
  process_pid : string;
  (** [sys.fileExists], [sys.readFile], [sys.newLine] *)
  sys_fileExists : string → W → bool;
  sys_readFile : string → W → option string;
  sys_newLine : string
}.

(** [Collaborators W] is the code of the repository that this source file
    calls and that lives in other files: the base class [TypingsInstaller],
    the shared helpers of the server and the module inspector. *)
Class Collaborators (W : Type) := {
  (** [nowString()], the time stamp of a log line *)
  nowString : W → W * string;
  (** the constructor of the base class, given the cache location, the
      safe list location, the types map location and the throttle limit;
      then [ensurePackageDirectoryExists(directory)] *)
  TypingsInstaller_super : string → string → string → Z → W → W;
  ensurePackageDirectoryExists : string → W → W;
  (** [this.latestDistTag], [version], [Arguments.NpmLocation] *)
  latestDistTag : string;
  version : string;
  Arguments_NpmLocation : string;
  normalizeSlashes : string → string;
  (** [createMapFromTemplate(template)], the map of the properties of
      [template] *)
  createMapFromTemplate : option json → Completion (gmap string json);
  (** what the typings resolution answers to a [discover] request and
      what the project life cycle answers to a [closeProject] request *)
  resolveTypings : json → W → W * json;
  releaseProject : json → W → W * json;
  (** [inspectModule(fileNameToRequire)] *)
  inspectModule : string → W → W * json
}.

(** ** Paths *)

(** [prefix_before_last_slash p] is [p.substr(0, p.lastIndexOf("/"))] when
    [p] contains a slash. *)
Fixpoint prefix_before_last_slash (p : string) : option string :=
  match p with
  | EmptyString => None
  | String c rest =>
      match prefix_before_last_slash rest with
      | Some q => Some (String c q)
      | None => if Ascii.eqb c "/"%char then Some EmptyString else None
      end
  end.

(** Modelled from the spec: [getDirectoryPath] is not in this source file.
    The parent of a directory is the path cut before its last separator;
    the file system root ["/"] is its own parent, and so is the empty
    relative path. *)
Definition getDirectoryPath (path : string) : string :=
  match prefix_before_last_slash path with
  | Some EmptyString => if starts_with "/"%char path then "/" else EmptyString
  | Some q => q
  | None => EmptyString
  end.

Definition ends_with_slash (p : string) : bool :=
  match prefix_before_last_slash p with
  | Some q => String.eqb (q +:+ "/") p
  | None => false
  end.

(** Modelled from the spec: [combinePaths] is not in this source file.
    It names the entry [name] of [directory]. *)
Definition combinePaths (directory name : string) : string :=
  if String.eqb directory EmptyString then name
  else if ends_with_slash directory then directory +:+ name
  else directory +:+ "/" +:+ name.

(** Modelled from the spec: [forEachAncestorDirectory] is not in this
    source file.  It calls [callback] on [directory], then on its parent,
    its grandparent and so on, returns the first result that is not
    [undefined], and gives up at the directory that is its own parent.
    Every step upward shortens the path, so the length of [directory]
    bounds the number of steps. *)
Fixpoint forEachAncestorDirectory_from {T : Type} (steps : nat) (directory : string)
    (callback : string → option T) : option T :=
  match callback directory with
  | Some result => Some result
  | None =>
      let parentPath := getDirectoryPath directory in
      if String.eqb parentPath directory then None
      else
        match steps with
        | O => None
        | S steps' => forEachAncestorDirectory_from steps' parentPath callback
        end
  end.

Definition forEachAncestorDirectory {T : Type} (directory : string)
    (callback : string → option T) : option T :=
  forEachAncestorDirectory_from (String.length directory) directory callback.

(** Modelled from the spec: [stringContains] is not in this source file.
    [stringContains str " "] tells whether [str] contains a space. *)
Fixpoint contains_char (c : ascii) (str : string) : bool :=
  match str with
  | EmptyString => false
  | String d rest => Ascii.eqb d c || contains_char c rest
  end.

Definition stringContains_space (str : string) : bool := contains_char space str.

(** The number of occurrences of [c] in [str]. *)
Fixpoint count_char (c : ascii) (str : string) : nat :=
  match str with
  | EmptyString => 0
  | String d rest => (if Ascii.eqb d c then 1 else 0) + count_char c rest
  end.

(** [ancestor k fileName]: the directory that contains [fileName] for
    [k = 0], its parent for [k = 1], and so on upward. *)
Definition ancestor (k : nat) (fileName : string) : string :=
  Nat.iter (S k) getDirectoryPath fileName.

(** ** The machine state and the monad of the embedding *)

Section Installer.
Context {W : Type} `{!Platform W} `{!Collaborators W}.

(** The state of the worker process: the world outside, the calls made
    so far, the [logFile] field of the one [FileLog] object (which the
    installer and the top-level script share), the fields that
    [NodeTypingsInstaller] declares, and whether the top-level script
    registered its [uncaughtException] listener. *)
Record State := mkState {
  world : W;
  trace : list Event;
  logFile : option string;
  npmPath : string;
  typesRegistry : gmap string json;
  delayedInitializationError : option string;
  uncaughtExceptionListener : bool
}.

Definition set_world (w : W) (s : State) : State :=
  mkState w (trace s) (logFile s) (npmPath s) (typesRegistry s)
          (delayedInitializationError s) (uncaughtExceptionListener s).
Definition add_event (ev : Event) (s : State) : State :=
  mkState (world s) (trace s ++ [ev]) (logFile s) (npmPath s) (typesRegistry s)
          (delayedInitializationError s) (uncaughtExceptionListener s).
Definition set_logFile (f : option string) (s : State) : State :=
  mkState (world s) (trace s) f (npmPath s) (typesRegistry s)
          (delayedInitializationError s) (uncaughtExceptionListener s).
Definition set_npmPath (p : string) (s : State) : State :=
  mkState (world s) (trace s) (logFile s) p (typesRegistry s)
          (delayedInitializationError s) (uncaughtExceptionListener s).
Definition set_typesRegistry (r : gmap string json) (s : State) : State :=
  mkState (world s) (trace s) (logFile s) (npmPath s) r
          (delayedInitializationError s) (uncaughtExceptionListener s).
Definition set_delayedInitializationError (d : option string) (s : State) : State :=
  mkState (world s) (trace s) (logFile s) (npmPath s) (typesRegistry s)
          d (uncaughtExceptionListener s).

(** A computation changes the state and returns or throws.  A throw
    keeps the changes made before it, as a JavaScript exception does. *)
Definition M (A : Type) : Type := State → State * Completion A.

#[export] Instance M_ret : MRet M := λ A a s, (s, Normal a).
#[export] Instance M_bind : MBind M := λ A B f m s,
  match m s with
  | (s', Normal a) => f a s'
  | (s', Throw e) => (s', Throw e)
  end.

Definition throw {A : Type} (e : JsError) : M A := λ s, (s, Throw e).

(** [try { body } catch (e) { handler e }] *)
Definition try_catch {A : Type} (body : M A) (handler : JsError → M A) : M A := λ s,
  match body s with
  | (s', Normal a) => (s', Normal a)
  | (s', Throw e) => handler e s'
  end.

Definition gets {A : Type} (f : State → A) : M A := λ s, (s, Normal (f s)).
Definition modify (f : State → State) : M unit := λ s, (f s, Normal tt).
Definition emit (ev : Event) : M unit := modify (add_event ev).
(** A call of an outside primitive that changes the world. *)
Definition call {A : Type} (f : W → W * A) : M A := λ s,
  let (w', a) := f (world s) in (set_world w' s, Normal a).
Definition run (f : W → W) : M unit := λ s,
  (set_world (f (world s)) s, Normal tt).

(** The responses handed to [process.send] so far, oldest first. *)
Definition sent_of (evs : list Event) : list Response :=
  omap (λ ev, match ev with Send r => Some r | _ => None end) evs.
Definition sent (s : State) : list Response := sent_of (trace s).

(** The process launches made so far, oldest first, and how they
    ended. *)
Definition launches_of (evs : list Event) : list (string * list string * string) :=
  omap (λ ev, match ev with ExecFile f a c _ => Some (f, a, c) | _ => None end) evs.
Definition launches (s : State) : list (string * list string * string) :=
  launches_of (trace s).
Definition outcomes_of (evs : list Event) : list ExecOutcome :=
  omap (λ ev, match ev with ExecFile _ _ _ o => Some o | _ => None end) evs.

(** The log file writes attempted so far, oldest first. *)
Definition appends_of (evs : list Event) : list (string * string) :=
  omap (λ ev, match ev with AppendFile f c => Some (f, c) | _ => None end) evs.
Definition appends (s : State) : list (string * string) := appends_of (trace s).

(** The events other than log file writes. *)
Definition is_log (ev : Event) : bool :=
  match ev with
  | AppendFile _ _ => true
  | _ => false
  end.
Definition visible (evs : list Event) : list Event :=
  filter (λ ev, is_log ev = false) evs.

(** ** [FileLog] (lines 12-29) *)

Definition isEnabled : M bool :=
  gets (λ s, match logFile s with Some _ => true | None => false end).

Definition writeLine (text : string) : M unit :=
  f ← gets logFile;
  match f with
  | None => mret tt
  | Some file =>
      now ← call nowString;
      let content := "[" +:+ now +:+ "] " +:+ text +:+ sys_newLine in
      emit (AppendFile file content);;
      r ← call (fs_appendFileSync file content);
      match r with
      | Normal _ => mret tt
      | Throw _ => modify (set_logFile None)
      end
  end.

(** [if (log.isEnabled()) { log.writeLine(text); }] *)
Definition writeLine_if_enabled (text : string) : M unit :=
  b ← isEnabled;
  if b : bool then writeLine text else mret tt.

(** The write that [writeLine text] attempts in state [s] fails. *)
Definition write_fails (text : string) (s : State) : bool :=
  match logFile s with
  | None => false
  | Some file =>
      let (w, now) := nowString (world s) in
      match snd (fs_appendFileSync file ("[" +:+ now +:+ "] " +:+ text +:+ sys_newLine) w) with
      | Throw _ => true
      | Normal _ => false
      end
  end.

(** A sequence of [writeLine] calls. *)
Definition writeLines (texts : list string) : M unit :=
  foldr (λ text rest, writeLine text;; rest) (mret tt) texts.

(** ** [loadTypesRegistryFile] (lines 45-62) *)

(** [content.entries]: reading a property of [null] raises; an object
    gives its property, if it has one; any other value has no property of
    that name to copy entries from, which is rendered as [undefined]. *)
Definition get_entries (content : json) : Completion (option json) :=
  match content with
  | JNull => Throw (TypeError_property "entries")
  | JObj props => Normal (props !! "entries")
  | _ => Normal None
  end.

(** [JSON.parse(host.readFile(path)!)]: a file that cannot be read
    gives [undefined], which [JSON.parse] reads as the text
    ["undefined"]. *)
Definition parse_file (path : string) (w : W) : Completion json :=
  JSON_parse (default "undefined" (sys_readFile path w)).

Definition of_completion {A : Type} (c : Completion A) : M A := λ s, (s, c).

Definition loadTypesRegistryFile (typesRegistryFilePath : string) : M (gmap string json) :=
  present ← gets (λ s, sys_fileExists typesRegistryFilePath (world s));
  if negb present then
    writeLine_if_enabled
      ("Types registry file '" +:+ typesRegistryFilePath +:+ "' does not exist");;
    mret ∅
  else
    try_catch
      (content ← (λ s, (s, parse_file typesRegistryFilePath (world s)));
       entries ← of_completion (get_entries content);
       of_completion (createMapFromTemplate entries))
      (λ e,
         writeLine_if_enabled
           ("Error when loading types registry file '" +:+ typesRegistryFilePath
            +:+ "': " +:+ message e +:+ ", " +:+ stack e);;
         mret ∅).

Definition typesRegistryPackageName : string := "types-registry".

Definition getTypesRegistryFileLocation (globalTypingsCacheLocation : string) : string :=
  combinePaths (normalizeSlashes globalTypingsCacheLocation)
               ("node_modules/" +:+ typesRegistryPackageName +:+ "/index.json").

(** ** [getDefaultNPMLocation] (lines 32-39) *)

Definition quoted (p : string) : string := String dquote (p +:+ String dquote EmptyString).

Definition getDefaultNPMLocation (processName : string) : string :=
  if String.prefix "node" (path_basename processName)
  then quoted (path_join (path_dirname process_argv0) "npm")
  else "npm".

(** ** [sendResponse] (lines 177-185) *)

Definition sendResponse (response : Response) : M unit :=
  writeLine_if_enabled
    ("Sending response:" +:+ nl +:+ "    " +:+ stringify_response response);;
  emit (Send response);;
  writeLine_if_enabled "Response has been sent.".

(** ** [execFileSyncAndLog] (lines 200-216) *)

(** [indent(sys.newLine, str)] where [str] was read off a thrown value:
    [str.replace] raises when [str] is missing. *)
Definition indent_field (str : option string) : M string :=
  match str with
  | Some text => mret (indent sys_newLine text)
  | None => throw (TypeError_property "replace")
  end.

Definition nodeExecFileSync (file : string) (args : list string) (cwd : string)
    : M ExecOutcome :=
  outcome ← call (child_process_execFileSync file args cwd);
  emit (ExecFile file args cwd outcome);;
  mret outcome.

Definition execFileSyncAndLog (file : string) (args : list string) (cwd : string)
    : M bool :=
  writeLine_if_enabled ("Exec: " +:+ file +:+ " " +:+ String.concat " " args);;
  outcome ← nodeExecFileSync file args cwd;
  match outcome with
  | ExecReturn stdout =>
      writeLine_if_enabled ("    Succeeded. stdout:" +:+ indent sys_newLine stdout);;
      mret false
  | ExecThrow error =>
      out ← indent_field (exec_stdout error);
      err ← indent_field (exec_stderr error);
      writeLine ("    Failed. stdout:" +:+ out +:+ sys_newLine
                 +:+ "    stderr:" +:+ err);;
      mret true
  end.

(** What [execFileSyncAndLog] completes with when the launch ended with
    [outcome]. *)
Definition executor_result (outcome : ExecOutcome) : Completion bool :=
  match outcome with
  | ExecReturn _ => Normal false
  | ExecThrow error =>
      match exec_stdout error, exec_stderr error with
      | Some _, Some _ => Normal true
      | _, _ => Throw (TypeError_property "replace")
      end
  end.

(** ** [installWorker] (lines 187-197) *)

(** Modelled from the spec: [installNpmPackages] is not in this source
    file.  It invokes the install command of the package manager (the
    sub-command [install] and the flag that skips install-time scripts)
    once, with all the package names in that one invocation, and returns
    what the invocation returns. *)
Definition installNpmPackages (npmPath tsVersion : string) (packageNames : list string)
    (install : string → list string → M bool) : M bool :=
  install npmPath (["install"; "--ignore-scripts"] ++ packageNames).

Definition installWorker (requestId : Z) (packageNames : list string) (cwd : string)
    (onRequestCompleted : bool → M unit) : M unit :=
  writeLine_if_enabled
    ("#" +:+ pretty requestId +:+ " with arguments'"
     +:+ stringify_names packageNames +:+ "'.");;
  start ← call Date_now;
  npm ← gets npmPath;
  hasError ← installNpmPackages npm version packageNames
               (λ file args, execFileSyncAndLog file args cwd);
  b ← isEnabled;
  (if b : bool then
     finish ← call Date_now;
     writeLine ("npm install #" +:+ pretty requestId +:+ " took: "
                +:+ pretty (finish - start)%Z +:+ " ms")
   else mret tt);;
  onRequestCompleted (negb hasError).

(** ** [getDirectoryOfPackageJson] (lines 219-225) *)

(** The project manifest is in [directory]. *)
Definition hasManifest (directory : string) (w : W) : bool :=
  sys_fileExists (combinePaths directory "package.json") w.

Definition getDirectoryOfPackageJson (fileName : string) (w : W) : option string :=
  forEachAncestorDirectory (getDirectoryPath fileName)
    (λ directory,
       if sys_fileExists (combinePaths directory "package.json") w
       then Some directory else None).

(** ** The constructor of [NodeTypingsInstaller] (lines 82-125) *)

(** Lines 90-95: the location given on the command line or else the
    default one, wrapped in quotes when it contains a space and does not
    begin with a quote. *)
Definition resolved_npmLocation (npmLocation : option string) : string :=
  match npmLocation with
  | Some location => location
  | None => getDefaultNPMLocation process_argv0
  end.

(** Line 108: the arguments of the launch that updates the registry
    package. *)
Definition registry_update_args : list string :=
  ["install"; "--ignore-scripts"; typesRegistryPackageName +:+ "@" +:+ latestDistTag].

Definition NodeTypingsInstaller_constructor
    (globalTypingsCacheLocation typingSafeListLocation typesMapLocation : string)
    (npmLocation : option string) (throttleLimit : Z) : M unit :=
  run (TypingsInstaller_super globalTypingsCacheLocation typingSafeListLocation
         typesMapLocation throttleLimit);;
  modify (set_npmPath (resolved_npmLocation npmLocation));;
  (* If the NPM path contains spaces and isn't wrapped in quotes, do so. *)
  npm ← gets npmPath;
  (if stringContains_space npm && negb (starts_with dquote npm)
   then modify (set_npmPath (quoted npm))
   else mret tt);;
  enabled ← isEnabled;
  (if enabled : bool then
     writeLine ("Process id: " +:+ process_pid);;
     npm ← gets npmPath;
     writeLine ("NPM location: " +:+ npm +:+ " (explicit '" +:+ Arguments_NpmLocation
              +:+ "' " +:+ match npmLocation with Some _ => "" | None => "not " end
              +:+ " provided)")
   else mret tt);;
  run (ensurePackageDirectoryExists globalTypingsCacheLocation);;
  try_catch
    (writeLine_if_enabled ("Updating " +:+ typesRegistryPackageName +:+ " npm package...");;
     npm ← gets npmPath;
     execFileSyncAndLog npm registry_update_args globalTypingsCacheLocation;;
     writeLine_if_enabled ("Updated " +:+ typesRegistryPackageName +:+ " npm package"))
    (λ e,
       writeLine_if_enabled
         ("Error updating " +:+ typesRegistryPackageName +:+ " package: " +:+ message e);;
       (* store error info to report it later when it is known that server
          is already listening to events from typings installer *)
       modify (set_delayedInitializationError (Some (message e))));;
  registry ← loadTypesRegistryFile (getTypesRegistryFileLocation globalTypingsCacheLocation);
  modify (set_typesRegistry registry).

(** ** The message handler registered by [listen] (lines 127-175) *)

(** Modelled from the spec: [install], the method of the base class that
    handles a [discover] request, is not in this source file.  It
    delegates to the typings resolution and relays its response. *)
Definition install (req : json) : M unit :=
  answer ← call (resolveTypings req);
  sendResponse (TypingsDiscoveredResponse answer).

(** Modelled from the spec: [closeProject], the method of the base class
    that handles a [closeProject] request, is not in this source file.
    It delegates to the project life cycle; as every request does, it
    produces one response. *)
Definition closeProject (req : json) : M unit :=
  answer ← call (releaseProject req);
  sendResponse (ProjectClosedResponse answer).

(** JavaScript truthiness of a [string | undefined]: the empty string
    counts as false. *)
Definition truthy (v : option string) : bool :=
  match v with
  | Some text => negb (String.eqb text EmptyString)
  | None => false
  end.

(** [a || b] *)
Definition or_else (a b : option string) : option string :=
  if truthy a then a else b.

(** Lines 129-133: the stored failure of the constructor is reported
    at the first message, and cleared. *)
Definition report_delayedInitializationError : M unit :=
  pending ← gets delayedInitializationError;
  match pending with
  | Some msg =>
      (* report initializationFailed error *)
      sendResponse (InitializationFailedResponse msg);;
      modify (set_delayedInitializationError None)
  | None => mret tt
  end.

(** Lines 134-173: the [switch] on the kind of the request.  The type
    of requests is closed, so its [default] branch is not reached. *)
Definition handle (req : Request) : M unit :=
  match req with
  | DiscoverTypings payload => install payload
  | CloseProject payload => closeProject payload
  | TypesRegistryRequest =>
      (* an assignment to the key "__proto__" of a plain object creates
         no property *)
      registry ← gets typesRegistry;
      sendResponse (TypesRegistryResponse (delete "__proto__" registry))
  | InstallPackageRequest fileName packageName projectName projectRootPath =>
      found ← gets (λ s, getDirectoryOfPackageJson fileName (world s));
      let cwd := or_else found projectRootPath in
      if truthy cwd then
        installWorker (-1) [packageName] (default EmptyString cwd) (λ success : bool,
          let msg := if success
                     then "Package " +:+ packageName +:+ " installed."
                     else "There was an error installing " +:+ packageName +:+ "." in
          sendResponse (PackageInstalledResponse projectName success msg))
      else
        sendResponse (PackageInstalledResponse projectName false
                        "Could not determine a project root path.")
  | InspectValueRequest fileNameToRequire =>
      result ← call (inspectModule fileNameToRequire);
      sendResponse (InspectValueResponse result)
  end.

Definition onMessage (req : Request) : M unit :=
  report_delayedInitializationError;;
  handle req.

(** ** The top-level script (lines 227-246) *)

(** The process before the installer is constructed: [log] is
    [new FileLog(logFilePath)], and the [uncaughtException] listener is
    registered when the log is enabled at that point. *)
Definition boot (logFilePath : option string) (w : W) : State :=
  mkState w [] logFilePath EmptyString ∅ None
          (match logFilePath with Some _ => true | None => false end).

Definition startup
    (logFilePath : option string)
    (globalTypingsCacheLocation typingSafeListLocation typesMapLocation : string)
    (npmLocation : option string) (w : W) : State * Completion unit :=
  NodeTypingsInstaller_constructor globalTypingsCacheLocation typingSafeListLocation
    typesMapLocation npmLocation 5 (boot logFilePath w).

(** The messages [reqs] arrive one after the other.  Each is handled to
    the end before the next one.  An exception that leaves the handler
    goes to the [uncaughtException] listener, which logs it, after which
    the process goes on; without a listener the process dies with the
    exception and the remaining messages are not handled. *)
Fixpoint deliver (reqs : list Request) : M unit :=
  match reqs with
  | [] => mret tt
  | req :: rest =>
      try_catch (onMessage req)
        (λ e,
           listening ← gets uncaughtExceptionListener;
           if listening : bool
           then writeLine ("Unhandled exception: " +:+ Error_toString e
                           +:+ " at " +:+ stack e)
           else throw e);;
      deliver rest
  end.

(** [answers req r]: the response [r] is of the kind that replies to
    the request [req], for the same project where the kind names one. *)
Definition answers (req : Request) (r : Response) : bool :=
  match req, r with
  | DiscoverTypings _, TypingsDiscoveredResponse _ => true
  | CloseProject _, ProjectClosedResponse _ => true
  | TypesRegistryRequest, TypesRegistryResponse _ => true
  | InstallPackageRequest _ _ projectName _, PackageInstalledResponse projectName' _ _ =>
      String.eqb projectName projectName'
  | InspectValueRequest _, InspectValueResponse _ => true
  | _, _ => false
  end.

(** A launch that returned, or that failed with the output of the
    command on the thrown error. *)
Definition reports_output (o : ExecOutcome) : bool :=
  match o with
  | ExecReturn _ => true
  | ExecThrow e =>
      match exec_stdout e, exec_stderr e with
      | Some _, Some _ => true
      | _, _ => false
      end
  end.

(** The events that [s'] has and [s] had not yet. *)
Definition new_events (s s' : State) : list Event :=
  drop (length (trace s)) (trace s').

Definition is_initializationFailed (r : Response) : bool :=
  match r with
  | InitializationFailedResponse _ => true
  | _ => false
  end.

(** The report of the stored failure of the constructor, if there is
    one; it goes out when the first of the requests [reqs] arrives. *)
Definition pending_report (s : State) : list Response :=
  match delayedInitializationError s with
  | Some msg => [InitializationFailedResponse msg]
  | None => []
  end.

Definition first_report (s : State) (reqs : list Request) : list Response :=
  match reqs with
  | [] => []
  | _ :: _ => pending_report s
  end.

(** The count of responses as the specification words it: once [reqs]
    are delivered from [s], the outbound channel has one more response per
    request, plus one if an initialization failure was pending. *)
Definition response_count_as_specified (reqs : list Request) (s : State) : Prop :=
  length (sent (fst (deliver reqs s)))
  = length (sent s) + length reqs
    + match delayedInitializationError s with Some _ => 1 | None => 0 end.

(** ** Predicates on runs, used to state what the computations do *)

(** [wp m s Q]: run from [s], the computation [m] ends in a state and
    with a completion that satisfy [Q]. *)
Definition wp {A : Type} (m : M A) (s : State)
    (Q : State → Completion A → Prop) : Prop :=
  Q (m s).1 (m s).2.

(** [keeps s s']: the fields of the installer are the same in both. *)
Definition keeps (s s' : State) : Prop :=
  npmPath s' = npmPath s ∧ typesRegistry s' = typesRegistry s ∧
  delayedInitializationError s' = delayedInitializationError s ∧
  uncaughtExceptionListener s' = uncaughtExceptionListener s.

(** [grows s s' vis]: the trace of [s'] is the trace of [s] followed by
    new events, which are [vis] apart from log file writes. *)
Definition grows (s s' : State) (vis : list Event) : Prop :=
  ∃ evs, trace s' = trace s ++ evs ∧ visible evs = vis.

(** What handling one request adds to the trace: no report of an
    initialization failure; and, when every launch returned or reported
    its output, the handler returns and has sent one response, which
    replies to the request. *)
Definition handled (req : Request) (vis : list Event) (c : Completion ()) : Prop :=
  Forall (λ r, is_initializationFailed r = false) (sent_of vis) ∧
  (forallb reports_output (outcomes_of vis) = true →
   c = Normal tt ∧ ∃ r, sent_of vis = [r] ∧ answers req r = true).

(** [settled s s']: the installer is as in [s], and no initialization
    failure is pending any more. *)
Definition settled (s s' : State) : Prop :=
  npmPath s' = npmPath s ∧ typesRegistry s' = typesRegistry s ∧
  uncaughtExceptionListener s' = uncaughtExceptionListener s ∧
  delayedInitializationError s' = None.

(** What delivering [reqs] adds to the trace: the report of the pending
    failure if a request arrives, then responses among which there is no
    such report; and, when every launch returned or reported its output,
    every handler returns and these responses reply to the requests one
    by one, in the order of the requests. *)
Definition delivered (reqs : list Request) (s : State) (vis : list Event)
    (c : Completion ()) : Prop :=
  ∃ rest,
    sent_of vis = first_report s reqs ++ rest ∧
    Forall (λ r, is_initializationFailed r = false) rest ∧
    (forallb reports_output (outcomes_of vis) = true →
     c = Normal tt ∧ Forall2 (λ req r, answers req r = true) reqs rest).

(** ** Relations between the states before and after a computation *)

(** [preserves R m]: run from any state, [m] ends, returning or throwing,
    in a state related to the first one by [R]. *)
Definition preserves {A : Type} (R : State → State → Prop) (m : M A) : Prop :=
  ∀ s, R s (fst (m s)).

(** [log_kept s s']: the log is still on the file it had in [s], or is
    disabled; and every log write added to the trace went to that file. *)
Definition log_kept (s s' : State) : Prop :=
  (logFile s' = logFile s ∨ logFile s' = None) ∧
  ∃ evs, trace s' = trace s ++ evs ∧
         Forall (λ entry, logFile s = Some (fst entry)) (appends_of evs).

(** [settings_kept s s']: the path of the package manager, the registry
    and the registration of the [uncaughtException] listener are the same
    in both. *)
Definition settings_kept (s s' : State) : Prop :=
  npmPath s' = npmPath s ∧ typesRegistry s' = typesRegistry s ∧
  uncaughtExceptionListener s' = uncaughtExceptionListener s.

(** [frame R]: [R] is a preorder that holds across a change of the
    world, the sending of a response, a process launch, a [writeLine] call
    and the clearing of the stored initialization failure: the steps that
    the handling of a request is made of. *)
Record frame (R : State → State → Prop) : Prop := mkFrame {
  frame_refl : ∀ s, R s s;
  frame_trans : ∀ s1 s2 s3, R s1 s2 → R s2 s3 → R s1 s3;
  frame_world : ∀ w s, R s (set_world w s);
  frame_send : ∀ r s, R s (add_event (Send r) s);
  frame_exec : ∀ file args cwd outcome s, R s (add_event (ExecFile file args cwd outcome) s);
  frame_writeLine : ∀ text, preserves R (writeLine text);
  frame_settle : ∀ s, R s (set_delayedInitializationError None s)
}.

(** ** The two listeners of the top-level script (lines 234-244) *)

(** The requests that the listener answers with code of this file (lines
    141-170); [discover] and [closeProject] are handed to the base class
    (lines 135-140). *)
Definition answered_by_listener (req : Request) : bool :=
  match req with
  | DiscoverTypings _ | CloseProject _ => false
  | TypesRegistryRequest | InstallPackageRequest _ _ _ _ | InspectValueRequest _ => true
  end.

(** What the parent process makes arrive: a message or the loss of the
    channel. *)
Inductive Signal :=
| Message (req : Request)
| Disconnect.

(** Lines 235-237: the listener of [uncaughtException], when the
    top-level script registered it; without it the exception ends the
    process. *)
Definition on_uncaughtException (e : JsError) : M unit :=
  listening ← gets uncaughtExceptionListener;
  if listening : bool
  then writeLine ("Unhandled exception: " +:+ Error_toString e +:+ " at " +:+ stack e)
  else throw e.

(** Lines 239-244: the listener of [disconnect]. *)
Definition on_disconnect : M unit :=
  writeLine_if_enabled "Parent process has exited, shutting down...".

(** The signals arrive one after the other.  The result is the exit code
    when [process.exit] was called, and nothing while the process still
    waits for signals. *)
Fixpoint pump (signals : list Signal) : M (option Z) :=
  match signals with
  | [] => mret None
  | Message req :: rest =>
      try_catch (onMessage req) on_uncaughtException;;
      pump rest
  | Disconnect :: _ =>
      on_disconnect;;
      mret (Some 0%Z)
  end.

End Installer.

Arguments State W : clear implicits.
Arguments M W A : clear implicits.

(** ** A small platform to run the installer on

    Its world holds a clock, the paths of the files that exist, the text of
    the files that can be read and the number of log writes the disk still
    accepts.  What a process launch does is a parameter [launch] of the
    platform; its [JSON.parse] knows one document. *)
Module Sim.
Record World := mkWorld {
  clock : Z;
  existing : list string;
  readable : list (string * string);
  log_budget : nat
}.

Definition tick (w : World) : World :=
  mkWorld (clock w + 1) (existing w) (readable w) (log_budget w).

Definition lookup_text (path : string) (files : list (string * string)) : option string :=
  snd <$> List.find (λ entry, String.eqb (fst entry) path) files.

Definition q : string := String dquote EmptyString.

(** [{"entries":{"lodash":{"latest":"4.0"}}}] *)
Definition registry_text : string :=
  "{" +:+ q +:+ "entries" +:+ q +:+ ":{" +:+ q +:+ "lodash" +:+ q +:+ ":{"
  +:+ q +:+ "latest" +:+ q +:+ ":" +:+ q +:+ "4.0" +:+ q +:+ "}}}".

Definition lodash_entry : json := JObj {[ "latest" := JStr "4.0" ]}.
Definition registry_value : json :=
  JObj {[ "entries" := JObj {[ "lodash" := lodash_entry ]} ]}.

Fixpoint after_last_slash (p : string) : string :=
  match p with
  | EmptyString => EmptyString
  | String c rest =>
      if contains_char "/"%char rest then after_last_slash rest
      else if Ascii.eqb c "/"%char then rest else p
  end.

Definition syntax_error : JsError :=
  mkJsError "SyntaxError" "Unexpected token in JSON" "SyntaxError: at JSON.parse".
Definition disk_error : JsError :=
  mkJsError "Error" "ENOSPC: no space left on device" "Error: at appendFileSync".
Definition spawn_error : JsError :=
  mkJsError "Error" "spawnSync npm ENOENT" "Error: at execFileSync".
Definition exit_error : JsError :=
  mkJsError "Error" "Command failed: npm install" "Error: at execFileSync".

Definition platform (launch : string → list string → string → ExecOutcome)
    : Platform World := {|
  fs_appendFileSync := λ _ _ w,
    match log_budget w with
    | O => (w, Throw disk_error)
    | S n => (mkWorld (clock w) (existing w) (readable w) n, Normal tt)
    end;
  child_process_execFileSync := λ file args cwd w, (tick w, launch file args cwd);
  Date_now := λ w, (tick w, clock w);
  JSON_parse := λ text,
    if String.eqb text registry_text then Normal registry_value
    else Throw syntax_error;
  stringify_response := λ _, "{}";
  stringify_names := λ names, "[" +:+ String.concat "," names +:+ "]";
  TypeError_property := λ p,
    mkJsError "TypeError" ("Cannot read property '" +:+ p +:+ "' of undefined")
              "TypeError: at indent";
  path_basename := after_last_slash;
  path_dirname := λ p, getDirectoryPath p;
  path_join := λ a b, combinePaths a b;
  process_argv0 := "/usr/bin/node";
  process_pid := "1";
  sys_fileExists := λ path w, existsb (String.eqb path) (existing w);
  sys_readFile := λ path w, lookup_text path (readable w);
  sys_newLine := nl
|}.

#[export] Instance collaborators : Collaborators World := {|
  nowString := λ w, (tick w, pretty (clock w));
  TypingsInstaller_super := λ _ _ _ _ w, w;
  ensurePackageDirectoryExists := λ _ w, w;
  latestDistTag := "latest";
  version := "3.4";
  Arguments_NpmLocation := "--npmLocation";
  normalizeSlashes := λ p, p;
  createMapFromTemplate := λ template,
    match template with
    | Some (JObj props) => Normal props
    | _ => Normal ∅
    end;
  resolveTypings := λ req w, (w, req);
  releaseProject := λ req w, (w, req);
  inspectModule := λ file w, (w, JStr file)
|}.

(** Three ways a launch can end: the command exits with 0; it exits
    with another code, and the error carries what it printed; it cannot
    be spawned, and the error carries no output. *)
Definition succeeds : string → list string → string → ExecOutcome :=
  λ _ _ _, ExecReturn "added 1 package".
Definition exits_nonzero : string → list string → string → ExecOutcome :=
  λ _ _ _, ExecThrow (mkExecError exit_error (Some "") (Some "npm ERR! 404")).
Definition cannot_spawn : string → list string → string → ExecOutcome :=
  λ _ _ _, ExecThrow (mkExecError spawn_error None None).

Definition registry_path : string := "/cache/node_modules/types-registry/index.json".

(** A world with a manifest at [/a/b] and a registry file. *)
Definition world0 : World :=
  mkWorld 0 ["/a/b/package.json"; registry_path] [(registry_path, registry_text)] 1000.

(** The same world with a disk that accepts no write. *)
Definition full_disk : World :=
  mkWorld 0 ["/a/b/package.json"; registry_path] [(registry_path, registry_text)] 0.

Definition prints_three_lines : string → list string → string → ExecOutcome :=
  λ _ _ _, ExecReturn ("one" +:+ nl +:+ "two" +:+ nl +:+ "three").

Definition ok : Platform World := platform succeeds.
Definition exits : Platform World := platform exits_nonzero.
Definition nospawn : Platform World := platform cannot_spawn.

(** The process after its start with the given log file and location of
    the package manager, when launches end as [launch] says. *)
Definition started (launch : string → list string → string → ExecOutcome)
    (logFilePath npmLocation : option string) : State World :=
  fst (@startup World (platform launch) collaborators logFilePath "/cache" "" ""
         npmLocation world0).

(** The process after a start during which the package manager could
    not be spawned: the constructor has stored a failure. *)
Definition pending_state : State World := started cannot_spawn None None.

(** A request for the registry, then the install of a package for a file
    of the project at [/a/b]. *)
Definition two_requests : list Request :=
  [TypesRegistryRequest; InstallPackageRequest "/a/b/c/file.ts" "lodash" "proj" None].

(** The process before the constructor, with and without a log file. *)
Definition silent : State World := @boot World None world0.
Definition logging : State World := @boot World (Some "/log") world0.
Definition logging_full_disk : State World := @boot World (Some "/log") full_disk.
(** The process after a start that went well, without and with a log. *)
Definition ready : State World := started succeeds None (Some "npm").
Definition ready_logging : State World := started succeeds (Some "/log") (Some "npm").

(** A platform whose [JSON.parse] also knows the document [null], and a
    world whose registry file holds it. *)
Definition parses_null : Platform World := {|
  fs_appendFileSync := @fs_appendFileSync World ok;
  child_process_execFileSync := @child_process_execFileSync World ok;
  Date_now := @Date_now World ok;
  JSON_parse := λ text,
    if String.eqb text "null" then Normal JNull else @JSON_parse World ok text;
  stringify_response := @stringify_response World ok;
  stringify_names := @stringify_names World ok;
  TypeError_property := @TypeError_property World ok;
  path_basename := @path_basename World ok;
  path_dirname := @path_dirname World ok;
  path_join := @path_join World ok;
  process_argv0 := @process_argv0 World ok;
  process_pid := @process_pid World ok;
  sys_fileExists := @sys_fileExists World ok;
  sys_readFile := @sys_readFile World ok;
  sys_newLine := @sys_newLine World ok
|}.

Definition null_registry : State World :=
  @boot World None (mkWorld 0 [registry_path] [(registry_path, "null")] 1000).
End Sim.

(** * Properties *)

#[local] Arguments String.append : simpl nomatch.

(** ** Strings and [indent] *)

Example indent_one_line : indent nl "ok" = nl +:+ "    ok".
Proof. reflexivity. Qed.

Example indent_three_lines :
  indent nl ("a" +:+ nl +:+ "b" +:+ nl +:+ "c")
  = nl +:+ "    a" +:+ nl +:+ "    b" +:+ nl +:+ "c".
Proof. reflexivity. Qed.

Example indent_crlf :
  indent nl ("a" +:+ crnl +:+ "b" +:+ crnl +:+ "c")
  = nl +:+ "    a" +:+ nl +:+ "    b" +:+ crnl +:+ "c".
Proof. reflexivity. Qed.

Lemma count_char_app (c : ascii) (a b : string) :
  count_char c (a +:+ b) = count_char c a + count_char c b.
Proof. induction a as [|x a IH]; simpl; [reflexivity | rewrite IH; lia]. Qed.

Lemma starts_with_tail (c : ascii) (s : string) :
  starts_with c s = true → s = String c (string_tail s).
Proof.
  destruct s as [|d s]; simpl; [discriminate |].
  intros H. apply Ascii.eqb_eq in H. by subst.
Qed.

(** The leftmost match of [/\r?\n/] ends at the first line feed. *)
Lemma match_newline_Some (s pre m post : string) :
  match_newline s = Some (pre, m, post) →
  s = pre +:+ m +:+ post ∧ (m = nl ∨ m = crnl) ∧ count_char LF pre = 0.
Proof.
  revert pre. induction s as [|c s IH]; intros pre; simpl; [discriminate |].
  destruct (Ascii.eqb c LF) eqn:Hc.
  { apply Ascii.eqb_eq in Hc. subst c. intros [= <- <- <-]. simpl. auto. }
  destruct (Ascii.eqb c CR && starts_with LF s) eqn:Hcr.
  { apply andb_prop in Hcr as [Hc' Hs]. apply Ascii.eqb_eq in Hc'. subst c.
    intros [= <- <- <-]. simpl. rewrite <- (starts_with_tail _ _ Hs). auto. }
  destruct (match_newline s) as [[[pre' m'] post']|]; [|discriminate].
  intros [= <- <- <-]. destruct (IH pre' eq_refl) as (-> & Hm & Hpre).
  simpl. rewrite Hc. auto.
Qed.

Lemma match_newline_None (s : string) :
  match_newline s = None → count_char LF s = 0.
Proof.
  induction s as [|c s IH]; simpl; [reflexivity |].
  destruct (Ascii.eqb c LF); [discriminate |].
  destruct (Ascii.eqb c CR && starts_with LF s); [discriminate |].
  destruct (match_newline s) as [[[pre' m'] post']|]; [discriminate |].
  intros _. by rewrite IH.
Qed.

(** A replacement text without a dollar sign is inserted as it is. *)
Lemma GetSubstitution_plain (m before after replacement : string) :
  contains_char dollar replacement = false →
  GetSubstitution m before after replacement = replacement.
Proof.
  induction replacement as [|c r IH]; simpl; [reflexivity |].
  intros H. apply orb_false_elim in H as [Hc Hr]. rewrite Hc, IH; done.
Qed.

Lemma contains_char_app (c : ascii) (a b : string) :
  contains_char c (a +:+ b) = contains_char c a || contains_char c b.
Proof. induction a as [|x a IH]; simpl; [reflexivity | by rewrite IH, orb_assoc]. Qed.

(** C10.  [indent] puts the indentation at the start of the text and after
    its first line break only: when the text has two line feeds or more, the
    result is the indentation, the first line, the line separator, the
    indentation, and then the rest of the text as it was, which still
    contains a line feed that no indentation follows. *)
Theorem indent_first_newline_only (newline str : string) :
  contains_char dollar newline = false →
  2 ≤ count_char LF str →
  ∃ first m rest,
    str = first +:+ m +:+ rest ∧ (m = nl ∨ m = crnl) ∧ count_char LF first = 0 ∧
    indent newline str
    = (newline +:+ "    ") +:+ first +:+ (newline +:+ "    ") +:+ rest ∧
    1 ≤ count_char LF rest.
Proof.
  intros Hplain Hcount. unfold indent, replace_newline.
  destruct (match_newline str) as [[[first m] rest]|] eqn:Hm.
  - destruct (match_newline_Some _ _ _ _ Hm) as (Hstr & Hsep & Hfirst).
    exists first, m, rest. repeat split; try done.
    + rewrite GetSubstitution_plain; [reflexivity |].
      rewrite contains_char_app, Hplain. reflexivity.
    + rewrite Hstr, !count_char_app, Hfirst in Hcount.
      destruct Hsep as [-> | ->]; simpl in Hcount; lia.
  - apply match_newline_None in Hm. lia.
Qed.

(** In the log of the executor, the second line of the output of the
    command is indented and the third is not. *)
Example execFileSyncAndLog_logs_indent :
  appends (@execFileSyncAndLog Sim.World (Sim.platform Sim.prints_three_lines)
             Sim.collaborators "npm" ["install"] "/a/b" Sim.logging).1
  = [("/log", "[0] Exec: npm install" +:+ nl);
     ("/log", "[2]     Succeeded. stdout:" +:+ nl +:+ "    one" +:+ nl +:+ "    two"
              +:+ nl +:+ "three" +:+ nl)].
Proof. by vm_compute. Qed.

Lemma indent_first_newline_only_witness :
  ∃ first m rest,
    "a" +:+ nl +:+ "b" +:+ nl +:+ "c" = first +:+ m +:+ rest ∧
    (m = nl ∨ m = crnl) ∧ count_char LF first = 0 ∧
    indent nl ("a" +:+ nl +:+ "b" +:+ nl +:+ "c")
    = (nl +:+ "    ") +:+ first +:+ (nl +:+ "    ") +:+ rest ∧
    1 ≤ count_char LF rest.
Proof.
  apply (indent_first_newline_only nl ("a" +:+ nl +:+ "b" +:+ nl +:+ "c")).
  - reflexivity.
  - simpl. lia.
Defined.

(** ** Paths and the project root resolver *)

Example getDirectoryPath_file : getDirectoryPath "/a/b/c/file.ts" = "/a/b/c".
Proof. reflexivity. Qed.
Example getDirectoryPath_top : getDirectoryPath "/a" = "/".
Proof. reflexivity. Qed.
Example getDirectoryPath_root : getDirectoryPath "/" = "/".
Proof. reflexivity. Qed.
Example getDirectoryPath_relative : getDirectoryPath "file.ts" = "".
Proof. reflexivity. Qed.
Example combinePaths_dir : combinePaths "/a/b" "package.json" = "/a/b/package.json".
Proof. reflexivity. Qed.
Example combinePaths_root : combinePaths "/" "package.json" = "/package.json".
Proof. reflexivity. Qed.

Lemma prefix_before_last_slash_length (p q : string) :
  prefix_before_last_slash p = Some q → String.length q < String.length p.
Proof.
  revert q. induction p as [|c p IH]; intros q; simpl; [discriminate |].
  destruct (prefix_before_last_slash p) as [q'|].
  - intros [= <-]. simpl. specialize (IH q' eq_refl). lia.
  - destruct (Ascii.eqb c "/"); [|discriminate]. intros [= <-]. simpl. lia.
Qed.

(** Going to the parent shortens a path, unless the path is its own
    parent. *)
Lemma getDirectoryPath_shorter (p : string) :
  getDirectoryPath p ≠ p → String.length (getDirectoryPath p) < String.length p.
Proof.
  unfold getDirectoryPath.
  destruct (prefix_before_last_slash p) as [q|] eqn:Hq.
  - apply prefix_before_last_slash_length in Hq.
    destruct q as [|c q]; [|done].
    destruct p as [|d p]; simpl in *; [lia |].
    destruct (Ascii.eqb d "/") eqn:Hd; simpl; [|lia].
    apply Ascii.eqb_eq in Hd. subst d.
    destruct p as [|e p]; simpl; [done | lia].
  - destruct p; simpl; [done | lia].
Qed.

Lemma iter_fixed_point {A : Type} (f : A → A) (x : A) (k : nat) :
  f x = x → Nat.iter k f x = x.
Proof. intros Hx. induction k as [|k IH]; simpl; [reflexivity | by rewrite IH]. Qed.

(** The walk of [forEachAncestorDirectory] returns the first result of the
    callback along the chain of parents, and the bound on its number of
    steps is never reached. *)
Lemma forEachAncestorDirectory_from_first {T : Type}
    (callback : string → option T) (steps : nat) (directory : string) :
  String.length directory ≤ steps →
  match forEachAncestorDirectory_from steps directory callback with
  | Some result =>
      ∃ k, callback (Nat.iter k getDirectoryPath directory) = Some result ∧
           ∀ j, j < k → callback (Nat.iter j getDirectoryPath directory) = None
  | None => ∀ k, callback (Nat.iter k getDirectoryPath directory) = None
  end.
Proof.
  revert directory. induction steps as [|steps IH]; intros directory Hlen.
  - destruct directory; [|simpl in Hlen; lia]. simpl.
    destruct (callback "") eqn:Hcb.
    + exists 0. split; [done | intros; lia].
    + intros k. by rewrite iter_fixed_point.
  - simpl. destruct (callback directory) eqn:Hcb.
    { exists 0. split; [done | intros; lia]. }
    destruct (String.eqb (getDirectoryPath directory) directory) eqn:Hpar.
    { apply String.eqb_eq in Hpar. intros k. by rewrite iter_fixed_point. }
    apply String.eqb_neq in Hpar.
    pose proof (getDirectoryPath_shorter _ Hpar) as Hshort.
    specialize (IH (getDirectoryPath directory) ltac:(lia)).
    destruct (forEachAncestorDirectory_from steps _ callback) as [result|].
    + destruct IH as (k & Hk & Hbelow). exists (S k).
      rewrite Nat.iter_succ_r. split; [done |].
      intros [|j] Hj; [done |]. rewrite Nat.iter_succ_r. apply Hbelow. lia.
    + intros [|k]; [done |]. rewrite Nat.iter_succ_r. apply IH.
Qed.

Section Resolver.
Context {W : Type} `{!Platform W}.

Lemma getDirectoryOfPackageJson_first (fileName : string) (w : W) :
  match getDirectoryOfPackageJson fileName w with
  | Some directory =>
      ∃ k, directory = ancestor k fileName ∧
           hasManifest directory w = true ∧
           ∀ j, j < k → hasManifest (ancestor j fileName) w = false
  | None => ∀ k, hasManifest (ancestor k fileName) w = false
  end.
Proof.
  unfold getDirectoryOfPackageJson, forEachAncestorDirectory.
  set (callback := λ directory : string,
         if sys_fileExists (combinePaths directory "package.json") w
         then Some directory else None).
  pose proof (forEachAncestorDirectory_from_first callback
                (String.length (getDirectoryPath fileName))
                (getDirectoryPath fileName) (le_n _)) as Hwalk.
  assert (Hcb : ∀ d r, callback d = Some r → r = d ∧ hasManifest d w = true).
  { intros d r. unfold callback, hasManifest.
    destruct (sys_fileExists _ w); [|discriminate]. by intros [= <-]. }
  assert (Hno : ∀ d, callback d = None → hasManifest d w = false).
  { intros d. unfold callback, hasManifest.
    destruct (sys_fileExists _ w); [discriminate | done]. }
  assert (Hanc : ∀ k, Nat.iter k getDirectoryPath (getDirectoryPath fileName)
                      = ancestor k fileName).
  { intros k. unfold ancestor. by rewrite Nat.iter_succ_r. }
  destruct (forEachAncestorDirectory_from _ _ callback) as [directory|].
  - destruct Hwalk as (k & Hk & Hbelow). apply Hcb in Hk as [-> Hk].
    exists k. rewrite <- Hanc. repeat split; [done |].
    intros j Hj. rewrite <- Hanc. apply Hno, Hbelow, Hj.
  - intros k. rewrite <- Hanc. apply Hno, Hwalk.
Qed.

(** C7.  The resolver returns the nearest ancestor directory of the file
    that contains the project manifest, looking first at the directory of
    the file and then upward parent by parent; it returns nothing exactly
    when no ancestor up to the root contains the manifest. *)
Theorem getDirectoryOfPackageJson_nearest (fileName : string) (w : W) :
  (∀ directory,
     getDirectoryOfPackageJson fileName w = Some directory ↔
     ∃ k, directory = ancestor k fileName ∧
          hasManifest (ancestor k fileName) w = true ∧
          ∀ j, j < k → hasManifest (ancestor j fileName) w = false) ∧
  (getDirectoryOfPackageJson fileName w = None ↔
   ∀ k, hasManifest (ancestor k fileName) w = false).
Proof.
  pose proof (getDirectoryOfPackageJson_first fileName w) as Hfirst.
  destruct (getDirectoryOfPackageJson fileName w) as [found|].
  - destruct Hfirst as (k & -> & Hk & Hbelow). split.
    + intros directory. split.
      * intros [= <-]. by exists k.
      * intros (k' & -> & Hk' & Hbelow'). f_equal.
        destruct (Nat.lt_trichotomy k k') as [Hlt | [-> | Hlt]]; [|done|].
        -- rewrite (Hbelow' k Hlt) in Hk. discriminate.
        -- rewrite (Hbelow k' Hlt) in Hk'. discriminate.
    + split; [discriminate |]. intros Hnone. rewrite Hnone in Hk. discriminate.
  - split.
    + intros directory. split; [discriminate |].
      intros (k & _ & Hk & _). rewrite Hfirst in Hk. discriminate.
    + done.
Qed.
End Resolver.

(** The example of the spec: with a manifest at [/a/b], the file
    [/a/b/c/file.ts] resolves to [/a/b]; a file outside resolves to
    nothing. *)
Example getDirectoryOfPackageJson_example :
  @getDirectoryOfPackageJson _ (Sim.platform Sim.succeeds) "/a/b/c/file.ts" Sim.world0
  = Some "/a/b".
Proof. reflexivity. Qed.

Example getDirectoryOfPackageJson_absent :
  @getDirectoryOfPackageJson _ (Sim.platform Sim.succeeds) "/x/y/file.ts" Sim.world0
  = None.
Proof. reflexivity. Qed.

(** ** Reasoning about computations *)

Section Facts.
Context {W : Type} `{!Platform W} `{!Collaborators W}.
Implicit Types (s : State W) (evs vis : list Event).

Lemma wp_wand {A : Type} (m : M W A) s (Q Q' : State W → Completion A → Prop) :
  wp m s Q → (∀ s' c, Q s' c → Q' s' c) → wp m s Q'.
Proof. unfold wp. auto. Qed.

Lemma wp_bind {A B : Type} (m : M W A) (f : A → M W B) s Q :
  wp m s (λ s1 c, match c with
                  | Normal a => wp (f a) s1 Q
                  | Throw e => Q s1 (Throw e)
                  end) →
  wp (m ≫= f) s Q.
Proof.
  unfold wp, mbind, M_bind. destruct (m s) as [s1 [a|e]]; simpl; auto.
Qed.

Lemma wp_try_catch {A : Type} (body : M W A) (handler : JsError → M W A) s Q :
  wp body s (λ s1 c, match c with
                     | Normal a => Q s1 (Normal a)
                     | Throw e => wp (handler e) s1 Q
                     end) →
  wp (try_catch body handler) s Q.
Proof.
  unfold wp, try_catch. destruct (body s) as [s1 [a|e]]; simpl; auto.
Qed.

Lemma wp_ret {A : Type} (a : A) s (Q : State W → Completion A → Prop) :
  Q s (Normal a) → wp (mret a) s Q.
Proof. done. Qed.

Lemma wp_throw {A : Type} (e : JsError) s (Q : State W → Completion A → Prop) :
  Q s (Throw e) → wp (throw e) s Q.
Proof. done. Qed.

Lemma wp_gets {A : Type} (f : State W → A) s (Q : State W → Completion A → Prop) :
  Q s (Normal (f s)) → wp (gets f) s Q.
Proof. done. Qed.

Lemma wp_modify (f : State W → State W) s (Q : State W → Completion () → Prop) :
  Q (f s) (Normal tt) → wp (modify f) s Q.
Proof. done. Qed.

Lemma wp_call {A : Type} (f : W → W * A) s (Q : State W → Completion A → Prop) :
  Q (set_world (f (world s)).1 s) (Normal (f (world s)).2) → wp (call f) s Q.
Proof. unfold wp, call. by destruct (f (world s)). Qed.

Lemma wp_run (f : W → W) s (Q : State W → Completion () → Prop) :
  Q (set_world (f (world s)) s) (Normal tt) → wp (run f) s Q.
Proof. done. Qed.

Lemma keeps_refl s : keeps s s.
Proof. by repeat split. Qed.

Lemma keeps_trans s1 s2 s3 : keeps s1 s2 → keeps s2 s3 → keeps s1 s3.
Proof. unfold keeps. intros (?&?&?&?) (?&?&?&?). repeat split; congruence. Qed.

Lemma grows_refl s : grows s s [].
Proof. exists []. by rewrite app_nil_r. Qed.

Lemma visible_app evs1 evs2 : visible (evs1 ++ evs2) = visible evs1 ++ visible evs2.
Proof. apply filter_app. Qed.

Lemma grows_trans s1 s2 s3 vis1 vis2 :
  grows s1 s2 vis1 → grows s2 s3 vis2 → grows s1 s3 (vis1 ++ vis2).
Proof.
  intros (evs1 & H1 & <-) (evs2 & H2 & <-). exists (evs1 ++ evs2).
  by rewrite H2, H1, app_assoc, visible_app.
Qed.

Lemma grows_new_events s s' vis : grows s s' vis → visible (new_events s s') = vis.
Proof.
  intros (evs & Htr & <-). unfold new_events. by rewrite Htr, drop_app_length.
Qed.

(** ** The logger *)

Lemma writeLine_disabled (text : string) s :
  logFile s = None → writeLine text s = (s, Normal tt).
Proof. intros Hlog. unfold writeLine, mbind, M_bind, gets. by rewrite Hlog. Qed.

Lemma writeLines_disabled (texts : list string) s :
  logFile s = None → writeLines texts s = (s, Normal tt).
Proof.
  intros Hlog. induction texts as [|text texts IH]; [done |].
  unfold writeLines in *. simpl. unfold mbind, M_bind in *.
  by rewrite writeLine_disabled.
Qed.

(** [writeLine] returns, whatever the write does; it leaves the installer
    alone and adds nothing but a log file write. *)
Lemma writeLine_spec (text : string) s :
  wp (writeLine text) s (λ s' c,
    c = Normal tt ∧ keeps s s' ∧ grows s s' [] ∧
    (logFile s' = logFile s ∨ logFile s' = None)).
Proof.
  unfold wp, writeLine, mbind, M_bind, gets, call, emit, modify.
  destruct (logFile s) as [file|] eqn:Hlog; simpl.
  - destruct (nowString (world s)) as [w now]; simpl.
    destruct (fs_appendFileSync file _ w) as [w' [[]|e]]; simpl.
    + repeat split; auto. eexists [_]. by split.
    + repeat split; auto. eexists [_]. by split.
  - repeat split; auto using grows_refl.
Qed.

Lemma writeLine_returns (text : string) s : (writeLine text s).2 = Normal tt.
Proof. apply (writeLine_spec text s). Qed.

Lemma writeLines_returns (texts : list string) s : (writeLines texts s).2 = Normal tt.
Proof.
  revert s. induction texts as [|text texts IH]; intros s; [done |].
  unfold writeLines in *. simpl. unfold mbind, M_bind in *.
  pose proof (writeLine_returns text s) as Hret.
  destruct (writeLine text s) as [s1 c]. simpl in Hret. subst c. apply IH.
Qed.

Lemma writeLine_fails_disables (text : string) s :
  write_fails text s = true → logFile (writeLine text s).1 = None.
Proof.
  unfold write_fails, writeLine, mbind, M_bind, gets, call, emit, modify.
  destruct (logFile s) as [file|]; simpl; [|discriminate].
  destruct (nowString (world s)) as [w now]; simpl.
  by destruct (fs_appendFileSync file _ w) as [w' [[]|e]].
Qed.

(** C9.  No sequence of [writeLine] calls raises.  When the write of a
    [writeLine] call fails, the call still returns, the logger is disabled
    from then on ([isEnabled] answers false), and every later sequence of
    [writeLine] calls changes nothing: no write is attempted and the
    logger stays disabled. *)
Theorem FileLog_disabled_after_failure (text : string) s :
  (∀ texts, (writeLines texts s).2 = Normal tt) ∧
  (write_fails text s = true →
   ∃ s', writeLine text s = (s', Normal tt) ∧
         isEnabled s' = (s', Normal false) ∧
         ∀ texts, writeLines texts s' = (s', Normal tt) ∧
                  isEnabled (writeLines texts s').1 = (s', Normal false)).
Proof.
  split; [intros texts; apply writeLines_returns |].
  intros Hfail. pose proof (writeLine_fails_disables _ _ Hfail) as Hoff.
  pose proof (writeLine_returns text s) as Hret.
  destruct (writeLine text s) as [s' c]. simpl in *. subst c.
  exists s'. split; [done |].
  assert (Hen : isEnabled s' = (s', Normal false)).
  { unfold isEnabled, gets. by rewrite Hoff. }
  split; [done |]. intros texts. by rewrite writeLines_disabled.
Qed.

(** ** Traces *)

Lemma keeps_add_event ev s : keeps s (add_event ev s).
Proof. by repeat split. Qed.

Lemma keeps_set_world w s : keeps s (set_world w s).
Proof. by repeat split. Qed.

Lemma grows_add_event ev s : grows s (add_event ev s) (visible [ev]).
Proof. by exists [ev]. Qed.

Lemma grows_set_world w s : grows s (set_world w s) [].
Proof. exists []. simpl. by rewrite app_nil_r. Qed.

Lemma grows_eq s s' vis vis' : grows s s' vis → vis = vis' → grows s s' vis'.
Proof. by intros ? <-. Qed.

Lemma visible_cons ev evs :
  visible (ev :: evs) = if is_log ev then visible evs else ev :: visible evs.
Proof. unfold visible. rewrite filter_cons. destruct (is_log ev); by case_decide. Qed.

Lemma sent_of_visible evs : sent_of (visible evs) = sent_of evs.
Proof.
  induction evs as [|ev evs IH]; [done |].
  rewrite visible_cons. destruct ev; simpl; by rewrite IH.
Qed.

Lemma launches_of_visible evs : launches_of (visible evs) = launches_of evs.
Proof.
  induction evs as [|ev evs IH]; [done |].
  rewrite visible_cons. destruct ev; simpl; by rewrite IH.
Qed.

Lemma outcomes_of_visible evs : outcomes_of (visible evs) = outcomes_of evs.
Proof.
  induction evs as [|ev evs IH]; [done |].
  rewrite visible_cons. destruct ev; simpl; by rewrite IH.
Qed.

Lemma grows_sent s s' vis : grows s s' vis → sent s' = sent s ++ sent_of vis.
Proof.
  intros (evs & Htr & <-). unfold sent, sent_of.
  rewrite Htr, omap_app. f_equal. symmetry. apply sent_of_visible.
Qed.

Lemma grows_launches s s' vis :
  grows s s' vis → launches s' = launches s ++ launches_of vis.
Proof.
  intros (evs & Htr & <-). unfold launches, launches_of.
  rewrite Htr, omap_app. f_equal. symmetry. apply launches_of_visible.
Qed.

(** Both relations are proved by going back from the final state along
    the hypotheses and the state updates. *)
Ltac keeps_tac :=
  repeat match goal with
    | |- keeps ?s ?s => apply keeps_refl
    | |- keeps ?s (add_event _ ?x) => apply (keeps_trans s x); [| apply keeps_add_event]
    | |- keeps ?s (set_world _ ?x) => apply (keeps_trans s x); [| apply keeps_set_world]
    | H : keeps ?x ?s' |- keeps ?s ?s' => apply (keeps_trans s x); [| exact H]
    end.

Ltac grows_back :=
  repeat match goal with
    | |- grows ?s ?s _ => apply grows_refl
    | |- grows ?s (add_event _ ?x) _ =>
        eapply (grows_trans s x); [| apply grows_add_event]
    | |- grows ?s (set_world _ ?x) _ =>
        eapply (grows_trans s x); [| apply grows_set_world]
    | H : grows ?x ?s' _ |- grows ?s ?s' _ => eapply (grows_trans s x); [| exact H]
    end.

Ltac grows_tac :=
  eapply grows_eq;
  [ grows_back | rewrite ?visible_cons; simpl; rewrite ?app_nil_r; reflexivity ].

Lemma writeLine_if_enabled_spec (text : string) s :
  wp (writeLine_if_enabled text) s (λ s' c,
    c = Normal tt ∧ keeps s s' ∧ grows s s' []).
Proof.
  unfold writeLine_if_enabled. apply wp_bind, wp_gets.
  destruct (logFile s).
  - eapply wp_wand; [apply writeLine_spec |]. by intros s' c (? & ? & ? & _).
  - apply wp_ret. auto using keeps_refl, grows_refl.
Qed.

Lemma writeLine_if_enabled_is_writeLine (text : string) s :
  writeLine_if_enabled text s = writeLine text s.
Proof.
  unfold writeLine_if_enabled, isEnabled, mbind, M_bind, gets.
  destruct (logFile s) eqn:Hlog; [done |]. by rewrite writeLine_disabled.
Qed.

(** ** [sendResponse] *)

Lemma sendResponse_spec (response : Response) s :
  wp (sendResponse response) s (λ s' c,
    c = Normal tt ∧ keeps s s' ∧ grows s s' [Send response]).
Proof.
  unfold sendResponse.
  eapply wp_bind, wp_wand; [apply writeLine_if_enabled_spec |].
  intros s1 ? (-> & Hk1 & Hg1).
  apply wp_bind, wp_modify.
  eapply wp_wand; [apply writeLine_if_enabled_spec |].
  intros s2 ? (-> & Hk2 & Hg2).
  split; [done |]. split; [keeps_tac | grows_tac].
Qed.

(** ** [execFileSyncAndLog] *)

(** The executor launches the command once.  It returns [false] when the
    launch returns, [true] when the launch throws an error that carries
    the standard output and the standard error, and it throws when the
    error carries no standard output or no standard error. *)
Lemma execFileSyncAndLog_spec (file : string) (args : list string) (cwd : string) s :
  wp (execFileSyncAndLog file args cwd) s (λ s' c,
    ∃ outcome,
      keeps s s' ∧ grows s s' [ExecFile file args cwd outcome] ∧
      c = executor_result outcome).
Proof.
  unfold execFileSyncAndLog, nodeExecFileSync.
  eapply wp_bind, wp_wand; [apply writeLine_if_enabled_spec |].
  intros s1 ? (-> & Hk1 & Hg1).
  apply wp_bind, wp_bind, wp_call. apply wp_bind, wp_modify. apply wp_ret.
  set (outcome := (child_process_execFileSync file args cwd (world s1)).2).
  set (s2 := add_event _ _).
  assert (Hk2 : keeps s s2).
  { subst s2. keeps_tac. }
  assert (Hg2 : grows s s2 [ExecFile file args cwd outcome]).
  { subst s2. grows_tac. }
  clearbody s2. destruct outcome as [stdout | error]; simpl.
  - eapply wp_bind, wp_wand; [apply writeLine_if_enabled_spec |].
    intros s3 ? (-> & Hk3 & Hg3). apply wp_ret.
    eexists. split; [keeps_tac |]. split; [grows_tac | done].
  - destruct (exec_stdout error) as [out|] eqn:Hout; simpl.
    + apply wp_bind, wp_ret.
      destruct (exec_stderr error) as [err|] eqn:Herr; simpl.
      * apply wp_bind, wp_ret.
        eapply wp_bind, wp_wand; [apply writeLine_spec |].
        intros s3 ? (-> & Hk3 & Hg3 & _). apply wp_ret.
        eexists. split; [keeps_tac |]. split; [grows_tac |].
        simpl. by rewrite Hout, Herr.
      * apply wp_bind, wp_throw.
        eexists. split; [keeps_tac |]. split; [grows_tac |].
        simpl. by rewrite Hout, Herr.
    + apply wp_bind, wp_throw.
      eexists. split; [keeps_tac |]. split; [grows_tac |].
      simpl. by rewrite Hout.
Qed.

(** For every call, on every platform: the executor launches the command
    once, and what it completes with is decided by how the launch ended. *)
Lemma execFileSyncAndLog_completion (file : string) (args : list string) (cwd : string) s :
  ∃ outcome,
    visible (new_events s (execFileSyncAndLog file args cwd s).1)
    = [ExecFile file args cwd outcome] ∧
    match outcome with
    | ExecReturn _ => (execFileSyncAndLog file args cwd s).2 = Normal false
    | ExecThrow error =>
        match exec_stdout error, exec_stderr error with
        | Some _, Some _ => (execFileSyncAndLog file args cwd s).2 = Normal true
        | _, _ =>
            (execFileSyncAndLog file args cwd s).2 = Throw (TypeError_property "replace")
        end
    end.
Proof.
  destruct (execFileSyncAndLog_spec file args cwd s) as (outcome & _ & Hg & Hc).
  exists outcome. split; [by apply grows_new_events |].
  rewrite Hc. destruct outcome as [stdout|error]; simpl; [done |].
  by destruct (exec_stdout error), (exec_stderr error).
Qed.

(** ** [loadTypesRegistryFile] *)

Lemma loadTypesRegistryFile_spec (path : string) s :
  wp (loadTypesRegistryFile path) s (λ s' c,
    (∃ registry, c = Normal registry) ∧ keeps s s' ∧ grows s s' []).
Proof.
  unfold loadTypesRegistryFile. apply wp_bind, wp_gets.
  destruct (sys_fileExists path (world s)); simpl.
  - apply wp_try_catch. unfold wp at 1. unfold mbind, M_bind, of_completion.
    destruct (parse_file path (world s)) as [content|e]; simpl.
    + destruct (get_entries content) as [entries|e]; simpl.
      * destruct (createMapFromTemplate entries) as [registry|e]; simpl.
        -- eauto using keeps_refl, grows_refl.
        -- eapply wp_bind, wp_wand; [apply writeLine_if_enabled_spec |].
           intros s1 ? (-> & Hk1 & Hg1). apply wp_ret. eauto.
      * eapply wp_bind, wp_wand; [apply writeLine_if_enabled_spec |].
        intros s1 ? (-> & Hk1 & Hg1). apply wp_ret. eauto.
    + eapply wp_bind, wp_wand; [apply writeLine_if_enabled_spec |].
      intros s1 ? (-> & Hk1 & Hg1). apply wp_ret. eauto.
  - eapply wp_bind, wp_wand; [apply writeLine_if_enabled_spec |].
    intros s1 ? (-> & Hk1 & Hg1). apply wp_ret. eauto.
Qed.

(** ** [installWorker] *)

(** The worker launches the install command once, with the stored path
    of the package manager, all the package names and the working
    directory; when the executor returns [failed], it goes on with
    [onRequestCompleted (negb failed)], and when the executor throws, the
    worker throws without calling [onRequestCompleted]. *)
Lemma installWorker_spec (requestId : Z) (packageNames : list string) (cwd : string)
    (onRequestCompleted : bool → M W ()) s (Q : State W → Completion () → Prop) :
  (∀ s1 outcome,
     keeps s s1 →
     grows s s1 [ExecFile (npmPath s) (["install"; "--ignore-scripts"] ++ packageNames)
                          cwd outcome] →
     match executor_result outcome with
     | Normal failed => wp (onRequestCompleted (negb failed)) s1 Q
     | Throw e => Q s1 (Throw e)
     end) →
  wp (installWorker requestId packageNames cwd onRequestCompleted) s Q.
Proof.
  intros Hnext. unfold installWorker, installNpmPackages.
  eapply wp_bind, wp_wand; [apply writeLine_if_enabled_spec |].
  intros s1 ? (-> & Hk1 & Hg1).
  apply wp_bind, wp_call. set (s2 := set_world _ s1).
  assert (Hk2 : keeps s s2). { subst s2. keeps_tac. }
  assert (Hg2 : grows s s2 []). { subst s2. grows_tac. }
  clearbody s2. apply wp_bind, wp_gets.
  eapply wp_bind, wp_wand; [apply execFileSyncAndLog_spec |].
  intros s3 c (outcome & Hk3 & Hg3 & ->).
  assert (Hnpm : npmPath s2 = npmPath s) by apply Hk2. rewrite Hnpm in Hg3.
  destruct (executor_result outcome) as [failed|e] eqn:Hres.
  - apply wp_bind. unfold isEnabled. apply wp_gets.
    destruct (logFile s3).
    + apply wp_bind, wp_bind, wp_call.
      eapply wp_wand; [apply writeLine_spec |].
      intros s4 ? (-> & Hk4 & Hg4 & _).
      specialize (Hnext s4 outcome). rewrite Hres in Hnext.
      apply Hnext; [keeps_tac | grows_tac].
    + apply wp_bind, wp_ret.
      specialize (Hnext s3 outcome). rewrite Hres in Hnext.
      apply Hnext; [keeps_tac | grows_tac].
  - specialize (Hnext s3 outcome). rewrite Hres in Hnext.
    apply Hnext; [keeps_tac | grows_tac].
Qed.

(** For every call, on every platform: after its single launch the worker
    either runs the completion callback once, on the negation of what the
    executor returned, or, when the executor throws, ends with that
    exception and does not run the callback. *)
Lemma installWorker_completion (requestId : Z) (packageNames : list string)
    (cwd : string) (onRequestCompleted : bool → M W ()) s :
  ∃ s1 outcome,
    keeps s s1 ∧
    grows s s1 [ExecFile (npmPath s) (["install"; "--ignore-scripts"] ++ packageNames)
                         cwd outcome] ∧
    installWorker requestId packageNames cwd onRequestCompleted s
    = match executor_result outcome with
      | Normal failed => onRequestCompleted (negb failed) s1
      | Throw e => (s1, Throw e)
      end.
Proof.
  pose proof (installWorker_spec requestId packageNames cwd onRequestCompleted s
    (λ s' c, ∃ s1 outcome,
       keeps s s1 ∧
       grows s s1 [ExecFile (npmPath s) (["install"; "--ignore-scripts"] ++ packageNames)
                            cwd outcome] ∧
       (s', c) = match executor_result outcome with
                 | Normal failed => onRequestCompleted (negb failed) s1
                 | Throw e => (s1, Throw e)
                 end)) as Hspec.
  unfold wp in Hspec.
  destruct (installWorker requestId packageNames cwd onRequestCompleted s) as [s' c].
  apply Hspec. intros s1 outcome Hk Hg.
  destruct (executor_result outcome) as [failed|e] eqn:Hres.
  - exists s1, outcome. rewrite Hres.
    split; [done |]. split; [done |]. by destruct (onRequestCompleted _ s1).
  - exists s1, outcome. by rewrite Hres.
Qed.

(** ** The message handler *)

Lemma reports_output_result (outcome : ExecOutcome) :
  reports_output outcome = true → ∃ failed, executor_result outcome = Normal failed.
Proof.
  destruct outcome as [stdout|error]; simpl; [eauto |].
  destruct (exec_stdout error), (exec_stderr error); eauto; discriminate.
Qed.

Lemma handled_response (req : Request) (r : Response) :
  is_initializationFailed r = false → answers req r = true →
  handled req [Send r] (Normal tt).
Proof.
  intros Hkind Hans. split; simpl.
  - by constructor.
  - intros _. eauto.
Qed.

Lemma handle_spec (req : Request) s :
  wp (handle req) s (λ s' c, keeps s s' ∧ ∃ vis, grows s s' vis ∧ handled req vis c).
Proof.
  destruct req as [payload | payload | | fileName packageName projectName projectRootPath
                  | fileNameToRequire]; simpl.
  - unfold install. apply wp_bind, wp_call.
    eapply wp_wand; [apply sendResponse_spec |]. intros s1 ? (-> & Hk1 & Hg1).
    split; [keeps_tac |]. eexists. split; [grows_tac |]. by apply handled_response.
  - unfold closeProject. apply wp_bind, wp_call.
    eapply wp_wand; [apply sendResponse_spec |]. intros s1 ? (-> & Hk1 & Hg1).
    split; [keeps_tac |]. eexists. split; [grows_tac |]. by apply handled_response.
  - apply wp_bind, wp_gets.
    eapply wp_wand; [apply sendResponse_spec |]. intros s1 ? (-> & Hk1 & Hg1).
    split; [keeps_tac |]. eexists. split; [grows_tac |]. by apply handled_response.
  - apply wp_bind, wp_gets.
    destruct (truthy (or_else _ projectRootPath)).
    + apply installWorker_spec. intros s1 outcome Hk1 Hg1.
      destruct (executor_result outcome) as [failed|e] eqn:Hres.
      * eapply wp_wand; [apply sendResponse_spec |]. intros s2 ? (-> & Hk2 & Hg2).
        split; [keeps_tac |]. eexists. split; [grows_tac |].
        split; simpl.
        -- by constructor.
        -- intros _. split; [done |]. eexists. split; [done |]. simpl.
           apply String.eqb_refl.
      * split; [keeps_tac |]. eexists. split; [grows_tac |].
        split; simpl; [constructor |].
        rewrite andb_true_r. intros [failed Hok]%reports_output_result. congruence.
    + eapply wp_wand; [apply sendResponse_spec |]. intros s1 ? (-> & Hk1 & Hg1).
      split; [keeps_tac |]. eexists. split; [grows_tac |].
      apply handled_response; [done |]. simpl. apply String.eqb_refl.
  - apply wp_bind, wp_call.
    eapply wp_wand; [apply sendResponse_spec |]. intros s1 ? (-> & Hk1 & Hg1).
    split; [keeps_tac |]. eexists. split; [grows_tac |]. by apply handled_response.
Qed.

Lemma settled_keeps s1 s2 s3 : settled s1 s2 → keeps s2 s3 → settled s1 s3.
Proof. unfold settled, keeps. intros (?&?&?&?) (?&?&?&?). repeat split; congruence. Qed.

Lemma report_delayedInitializationError_spec s :
  wp report_delayedInitializationError s (λ s' c,
    c = Normal tt ∧ settled s s' ∧ grows s s' (Send <$> pending_report s)).
Proof.
  unfold report_delayedInitializationError, pending_report.
  apply wp_bind, wp_gets.
  destruct (delayedInitializationError s) as [msg|] eqn:Hpending.
  - eapply wp_bind, wp_wand; [apply sendResponse_spec |].
    intros s1 ? (-> & Hk1 & Hg1). apply wp_modify. split; [done |]. split.
    + destruct Hk1 as (?&?&?&?). by repeat split.
    + destruct Hg1 as (evs & Htr & Hvis). by exists evs.
  - apply wp_ret. split; [done |]. split; [by repeat split | apply grows_refl].
Qed.

Lemma onMessage_spec (req : Request) s :
  wp (onMessage req) s (λ s' c,
    settled s s' ∧
    ∃ vis, grows s s' ((Send <$> pending_report s) ++ vis) ∧ handled req vis c).
Proof.
  unfold onMessage.
  eapply wp_bind, wp_wand; [apply report_delayedInitializationError_spec |].
  intros s1 ? (-> & Hs1 & Hg1).
  eapply wp_wand; [apply handle_spec |].
  intros s2 c (Hk2 & vis & Hg2 & Hdone).
  split; [by eapply settled_keeps |].
  exists vis. split; [by eapply grows_trans | done].
Qed.

(** ** The delivery of a sequence of requests *)

Lemma sent_of_app evs1 evs2 : sent_of (evs1 ++ evs2) = sent_of evs1 ++ sent_of evs2.
Proof. apply omap_app. Qed.

Lemma outcomes_of_app evs1 evs2 :
  outcomes_of (evs1 ++ evs2) = outcomes_of evs1 ++ outcomes_of evs2.
Proof. apply omap_app. Qed.

Lemma sent_of_Send (rs : list Response) : sent_of (Send <$> rs) = rs.
Proof.
  induction rs as [|r rs IH]; [done |].
  change (r :: sent_of (Send <$> rs) = r :: rs). by rewrite IH.
Qed.

Lemma outcomes_of_Send (rs : list Response) : outcomes_of (Send <$> rs) = [].
Proof.
  induction rs as [|r rs IH]; [done |].
  change (outcomes_of (Send <$> rs) = []). apply IH.
Qed.

Lemma first_report_settled (reqs : list Request) s :
  delayedInitializationError s = None → first_report s reqs = [].
Proof. intros Hnone. unfold first_report, pending_report. rewrite Hnone. by destruct reqs. Qed.

Lemma deliver_spec (reqs : list Request) s :
  wp (deliver reqs) s (λ s' c,
    (reqs ≠ [] → delayedInitializationError s' = None) ∧
    (delayedInitializationError s = None → delayedInitializationError s' = None) ∧
    ∃ vis, grows s s' vis ∧ delivered reqs s vis c).
Proof.
  revert s. induction reqs as [|req reqs IH]; intros s.
  { apply wp_ret. split; [done |]. split; [done |].
    exists []. split; [apply grows_refl |]. exists []. repeat split; by constructor. }
  simpl. apply wp_bind, wp_try_catch.
  eapply wp_wand; [apply onMessage_spec |].
  intros s1 c1 (Hs1 & vis1 & Hg1 & Hkinds1 & Hwhen1).
  assert (Hnone1 : delayedInitializationError s1 = None) by apply Hs1.
  assert (Hone :
    ∀ s2, keeps s1 s2 → grows s1 s2 [] →
      wp (deliver reqs) s2 (λ s' c,
        (req :: reqs ≠ [] → delayedInitializationError s' = None) ∧
        (delayedInitializationError s = None → delayedInitializationError s' = None) ∧
        ∃ vis, grows s s' vis ∧
          ∃ rest, sent_of vis = first_report s (req :: reqs) ++ rest ∧
            Forall (λ r, is_initializationFailed r = false) rest ∧
            (forallb reports_output (outcomes_of vis) = true →
             c1 = Normal tt ∧ c = Normal tt ∧
             Forall2 (λ req r, answers req r = true) (req :: reqs) rest))).
  { intros s2 Hk2 Hg2. eapply wp_wand; [apply IH |].
    intros s3 c3 (_ & Hnone3 & vis3 & Hg3 & rest3 & Hsent3 & Hkinds3 & Hwhen3).
    assert (Hnone2 : delayedInitializationError s2 = None).
    { destruct Hk2 as (_ & _ & -> & _). done. }
    rewrite (first_report_settled _ _ Hnone2) in Hsent3. simpl in Hsent3.
    split; [auto |]. split; [auto |].
    exists (((Send <$> pending_report s) ++ vis1) ++ [] ++ vis3).
    split.
    { eapply grows_trans; [exact Hg1 |]. eapply grows_trans; [exact Hg2 | exact Hg3]. }
    exists (sent_of vis1 ++ rest3). simpl.
    rewrite !sent_of_app, sent_of_Send, Hsent3, <- app_assoc.
    split; [done |]. split; [by apply Forall_app |].
    rewrite !outcomes_of_app, outcomes_of_Send. simpl.
    rewrite forallb_app. intros [Hok1 Hok3]%andb_prop.
    destruct (Hwhen1 Hok1) as (-> & r & -> & Hr).
    destruct (Hwhen3 Hok3) as (-> & Hrest).
    repeat split; [done.. |]. simpl. by constructor. }
  destruct c1 as [[]|e].
  - eapply wp_wand; [apply (Hone s1 (keeps_refl _) (grows_refl _)) |].
    intros s3 c3 (? & ? & vis & ? & rest & ? & ? & Hwhen).
    split; [done |]. split; [done |]. exists vis. split; [done |]. exists rest.
    split; [done |]. split; [done |].
    intros Hok. by destruct (Hwhen Hok) as (_ & ? & ?).
  - apply wp_bind, wp_gets.
    destruct (uncaughtExceptionListener s1).
    + eapply wp_wand; [apply writeLine_spec |].
      intros s2 ? (-> & Hk2 & Hg2 & _).
      eapply wp_wand; [apply (Hone s2 Hk2 Hg2) |].
      intros s3 c3 (? & ? & vis & ? & rest & ? & ? & Hwhen).
      split; [done |]. split; [done |]. exists vis. split; [done |]. exists rest.
      split; [done |]. split; [done |].
      intros Hok. by destruct (Hwhen Hok) as (? & _).
    + apply wp_throw. split; [done |]. split; [done |].
      exists ((Send <$> pending_report s) ++ vis1). split; [done |].
      exists (sent_of vis1). simpl. rewrite sent_of_app, sent_of_Send.
      split; [done |]. split; [done |].
      rewrite outcomes_of_app, outcomes_of_Send. simpl.
      intros Hok. by destruct (Hwhen1 Hok) as (? & _).
Qed.

(** ** The constructor *)

(** The constructor returns.  It stores the path of the package manager,
    quoted if need be, launches the update of the registry package with
    that path, and stores an initialization failure exactly when the
    executor throws. *)
Lemma NodeTypingsInstaller_constructor_spec
    (globalTypingsCacheLocation typingSafeListLocation typesMapLocation : string)
    (npmLocation : option string) (throttleLimit : Z) s :
  let resolved := resolved_npmLocation npmLocation in
  let final := if stringContains_space resolved && negb (starts_with dquote resolved)
               then quoted resolved else resolved in
  wp (NodeTypingsInstaller_constructor globalTypingsCacheLocation typingSafeListLocation
        typesMapLocation npmLocation throttleLimit) s (λ s' c,
    c = Normal tt ∧ npmPath s' = final ∧
    uncaughtExceptionListener s' = uncaughtExceptionListener s ∧
    ∃ outcome,
      grows s s' [ExecFile final registry_update_args globalTypingsCacheLocation outcome] ∧
      delayedInitializationError s' =
        match executor_result outcome with
        | Normal _ => delayedInitializationError s
        | Throw e => Some (message e)
        end).
Proof.
  intros resolved final. unfold NodeTypingsInstaller_constructor.
  apply wp_bind, wp_run. apply wp_bind, wp_modify. apply wp_bind, wp_gets. simpl.
  fold resolved.
  set (s0 := set_npmPath resolved _).
  eapply wp_bind, (wp_wand _ _ (λ s' c,
    c = Normal tt ∧ npmPath s' = final ∧
    delayedInitializationError s' = delayedInitializationError s ∧
    uncaughtExceptionListener s' = uncaughtExceptionListener s ∧ grows s s' [])).
  { subst final. destruct (stringContains_space resolved && negb _).
    - apply wp_modify. repeat split. exists []. simpl. by rewrite app_nil_r.
    - apply wp_ret. repeat split. exists []. simpl. by rewrite app_nil_r. }
  clearbody final. clear s0. intros s1 ? (-> & Hnpm1 & Hdel1 & Hlis1 & Hg1).
  apply wp_bind. unfold isEnabled. apply wp_gets.
  eapply wp_bind, (wp_wand _ _ (λ s' c, c = Normal tt ∧ keeps s1 s' ∧ grows s1 s' [])).
  { destruct (logFile s1).
    - eapply wp_bind, wp_wand; [apply writeLine_spec |]. intros s2 ? (-> & Hk2 & Hg2 & _).
      apply wp_bind, wp_gets.
      eapply wp_wand; [apply writeLine_spec |]. intros s3 ? (-> & Hk3 & Hg3 & _).
      split; [done |]. split; [keeps_tac | grows_tac].
    - apply wp_ret. split; [done |]. split; [keeps_tac | grows_tac]. }
  intros s2 ? (-> & Hk2 & Hg2).
  apply wp_bind, wp_run. set (s3 := set_world _ s2).
  assert (Hk3 : keeps s1 s3). { subst s3. keeps_tac. }
  assert (Hg3 : grows s1 s3 []). { subst s3. grows_tac. }
  clearbody s3. clear s2 Hk2 Hg2.
  eapply wp_bind, (wp_wand _ _ (λ s' c,
    c = Normal tt ∧ npmPath s' = final ∧
    uncaughtExceptionListener s' = uncaughtExceptionListener s ∧
    ∃ outcome,
      grows s s' [ExecFile final registry_update_args globalTypingsCacheLocation outcome] ∧
      delayedInitializationError s' =
        match executor_result outcome with
        | Normal _ => delayedInitializationError s
        | Throw e => Some (message e)
        end)).
  { apply wp_try_catch.
    eapply wp_bind, wp_wand; [apply writeLine_if_enabled_spec |].
    intros s4 ? (-> & Hk4 & Hg4). apply wp_bind, wp_gets.
    eapply wp_bind, wp_wand; [apply execFileSyncAndLog_spec |].
    intros s5 c (outcome & Hk5 & Hg5 & ->).
    assert (Hk : keeps s1 s5) by keeps_tac.
    assert (Hnpm4 : npmPath s4 = final).
    { destruct Hk3 as (? & _), Hk4 as (? & _). congruence. }
    rewrite Hnpm4 in Hg5.
    assert (Hg : grows s s5
              [ExecFile final registry_update_args globalTypingsCacheLocation outcome]).
    { grows_tac. }
    clear Hk3 Hg3 Hk4 Hg4 Hk5 Hg5 Hnpm4.
    destruct (executor_result outcome) as [failed|e] eqn:Hres.
    - eapply wp_wand; [apply writeLine_if_enabled_spec |].
      intros s6 ? (-> & Hk6 & Hg6).
      assert (Hk' : keeps s1 s6) by keeps_tac. destruct Hk' as (? & _ & ? & ?).
      split; [done |]. split; [congruence |]. split; [congruence |].
      exists outcome. rewrite Hres. split; [grows_tac | congruence].
    - eapply wp_bind, wp_wand; [apply writeLine_if_enabled_spec |].
      intros s6 ? (-> & Hk6 & Hg6). apply wp_modify.
      assert (Hk' : keeps s1 s6) by keeps_tac. destruct Hk' as (? & _ & ? & ?).
      split; [done |]. split; [simpl; congruence |]. split; [simpl; congruence |].
      exists outcome. rewrite Hres. split; [|done].
      destruct Hg as (evs & Htr & Hvis), Hg6 as (evs6 & Htr6 & Hvis6).
      exists (evs ++ evs6). simpl. rewrite Htr6, Htr, app_assoc, visible_app, Hvis, Hvis6.
      done. }
  intros s4 ? (-> & Hnpm4 & Hlis4 & outcome & Hg4 & Hdel4).
  eapply wp_bind, wp_wand; [apply loadTypesRegistryFile_spec |].
  intros s5 c ([registry ->] & Hk5 & Hg5). apply wp_modify.
  destruct Hk5 as (? & _ & ? & ?).
  split; [done |]. split; [simpl; congruence |]. split; [simpl; congruence |].
  exists outcome. split; [|simpl; congruence].
  destruct Hg4 as (evs & Htr & Hvis), Hg5 as (evs5 & Htr5 & Hvis5).
  exists (evs ++ evs5). simpl. rewrite Htr5, Htr, app_assoc, visible_app, Hvis, Hvis5.
  done.
Qed.

(** ** The dispatcher *)

Lemma grows_outcomes s s' vis :
  grows s s' vis → outcomes_of (new_events s s') = outcomes_of vis.
Proof.
  intros Hg. by rewrite <- (grows_new_events _ _ _ Hg), outcomes_of_visible.
Qed.

(** C1, as amended.  When every launch made while the requests are
    handled returns or reports the output of the command, every handler
    returns, and the responses sent are: the report of the pending
    initialization failure if there is one and at least one request
    arrives; then one response per request, in the order of the requests,
    each replying to its request.  So their number is the number of
    requests, plus one for a pending failure when a request arrived. *)
Theorem deliver_one_response_per_request (reqs : list Request) s :
  forallb reports_output (outcomes_of (new_events s (deliver reqs s).1)) = true →
  (deliver reqs s).2 = Normal tt ∧
  ∃ rs,
    sent (deliver reqs s).1 = sent s ++ first_report s reqs ++ rs ∧
    Forall2 (λ req r, answers req r = true) reqs rs ∧
    Forall (λ r, is_initializationFailed r = false) rs ∧
    length (sent (deliver reqs s).1)
    = length (sent s) + length reqs + length (first_report s reqs).
Proof.
  intros Hok.
  destruct (deliver_spec reqs s) as (_ & _ & vis & Hg & rs & Hsent & Hkinds & Hwhen).
  rewrite (grows_outcomes _ _ _ Hg) in Hok.
  destruct (Hwhen Hok) as (Hret & Hans).
  split; [done |]. exists rs.
  rewrite (grows_sent _ _ _ Hg), Hsent.
  split; [done |]. split; [done |]. split; [done |].
  rewrite !length_app, (Forall2_length _ _ _ Hans). lia.
Qed.

(** C2.  Among the responses sent while any sequence of requests is
    delivered, the report of the pending initialization failure comes
    first, if a failure is pending and a request arrives, and no other
    response is such a report.  Once a request has been delivered nothing
    is pending, and when nothing is pending nothing becomes pending: only
    the constructor stores a failure, at most one, when its launch
    throws past the executor, and it sends nothing. *)
Theorem initialization_failure_reported_once (reqs : list Request) s :
  (∃ rest,
     sent (deliver reqs s).1 = sent s ++ first_report s reqs ++ rest ∧
     Forall (λ r, is_initializationFailed r = false) rest) ∧
  (reqs ≠ [] → delayedInitializationError (deliver reqs s).1 = None) ∧
  (delayedInitializationError s = None →
   delayedInitializationError (deliver reqs s).1 = None) ∧
  (∀ cache safeList typesMap npmLocation throttleLimit,
     let s' := (NodeTypingsInstaller_constructor cache safeList typesMap npmLocation
                  throttleLimit s).1 in
     sent s' = sent s ∧
     ∃ outcome,
       delayedInitializationError s' =
         match executor_result outcome with
         | Normal _ => delayedInitializationError s
         | Throw e => Some (message e)
         end).
Proof.
  destruct (deliver_spec reqs s) as (Hafter & Hnone & vis & Hg & rest & Hsent & Hkinds & _).
  split; [|split; [done |split; [done |]]].
  - exists rest. by rewrite (grows_sent _ _ _ Hg), Hsent.
  - intros cache safeList typesMap npmLocation throttleLimit s'.
    destruct (NodeTypingsInstaller_constructor_spec cache safeList typesMap npmLocation
                throttleLimit s) as (_ & _ & _ & outcome & Hg' & Hdel).
    split; [|by exists outcome].
    subst s'. rewrite (grows_sent _ _ _ Hg'). simpl. by rewrite app_nil_r.
Qed.

Lemma no_manifest_no_directory (fileName : string) (w : W) :
  (∀ k, hasManifest (ancestor k fileName) w = false) →
  getDirectoryOfPackageJson fileName w = None.
Proof.
  intros Hnone. pose proof (getDirectoryOfPackageJson_first fileName w) as Hfirst.
  destruct (getDirectoryOfPackageJson fileName w) as [directory|]; [|done].
  destruct Hfirst as (k & -> & Hk & _). rewrite Hnone in Hk. discriminate.
Qed.

Lemma handle_installPackage_no_root (fileName packageName projectName : string) s :
  getDirectoryOfPackageJson fileName (world s) = None →
  handle (InstallPackageRequest fileName packageName projectName None) s
  = sendResponse (PackageInstalledResponse projectName false
                    "Could not determine a project root path.") s.
Proof. intros Hnone. unfold handle, mbind, M_bind, gets. by rewrite Hnone. Qed.

(** C3.  An [installPackage] request that brings no project root path,
    for a file none of whose ancestor directories contains the project
    manifest, is answered by the failure response with the message
    "Could not determine a project root path." (after the report of a
    pending initialization failure, if any), and no process is launched:
    neither the install worker nor the command executor runs. *)
Theorem installPackage_without_project_root
    (fileName packageName projectName : string) s :
  (∀ k, hasManifest (ancestor k fileName)
          (world (report_delayedInitializationError s).1) = false) →
  ∃ s',
    onMessage (InstallPackageRequest fileName packageName projectName None) s
    = (s', Normal tt) ∧
    sent s' = sent s ++ pending_report s
              ++ [PackageInstalledResponse projectName false
                    "Could not determine a project root path."] ∧
    launches s' = launches s.
Proof.
  intros Hnone.
  pose proof (report_delayedInitializationError_spec s) as Hreport.
  unfold onMessage, mbind, M_bind. unfold wp in Hreport.
  destruct (report_delayedInitializationError s) as [s1 c1]. cbn [fst snd] in *.
  destruct Hreport as (-> & _ & Hg1).
  rewrite (handle_installPackage_no_root _ _ _ _ (no_manifest_no_directory _ _ Hnone)).
  pose proof (sendResponse_spec
                (PackageInstalledResponse projectName false
                   "Could not determine a project root path.") s1) as Hsend.
  unfold wp in Hsend.
  destruct (sendResponse _ s1) as [s2 c2]. cbn [fst snd] in *.
  destruct Hsend as (-> & _ & Hg2). exists s2. split; [done |].
  pose proof (grows_trans _ _ _ _ _ Hg1 Hg2) as Hg.
  rewrite (grows_sent _ _ _ Hg), (grows_launches _ _ _ Hg).
  rewrite sent_of_app, sent_of_Send. split; [done |].
  unfold launches_of. rewrite omap_app. simpl.
  assert (Hlaunch : ∀ rs : list Response, launches_of (Send <$> rs) = []).
  { intros rs. induction rs as [|r rs IH]; [done | exact IH]. }
  unfold launches_of in Hlaunch. by rewrite Hlaunch, !app_nil_r.
Qed.

(** ** The registry loader *)

(** C6.  [loadTypesRegistryFile] never raises.  When the file does not
    exist it hands a line that says so to the logger and returns the empty
    map.  When the file exists and its text parses as an object whose
    [entries] property is an object, it returns the properties of
    [entries] as the map, and logs nothing.  When the text does not parse,
    it hands a line with the message and the stack of the error to the
    logger and returns the empty map.  (The logger writes the line when it
    is enabled.) *)
Theorem loadTypesRegistryFile_result (path : string) s :
  (∃ registry, (loadTypesRegistryFile path s).2 = Normal registry) ∧
  (sys_fileExists path (world s) = false →
   loadTypesRegistryFile path s
   = ((writeLine ("Types registry file '" +:+ path +:+ "' does not exist") s).1,
      Normal ∅)) ∧
  (∀ text props entries,
     sys_fileExists path (world s) = true →
     sys_readFile path (world s) = Some text →
     JSON_parse text = Normal (JObj props) →
     props !! "entries" = Some (JObj entries) →
     createMapFromTemplate (Some (JObj entries)) = Normal entries →
     loadTypesRegistryFile path s = (s, Normal entries)) ∧
  (∀ text e,
     sys_fileExists path (world s) = true →
     sys_readFile path (world s) = Some text →
     JSON_parse text = Throw e →
     loadTypesRegistryFile path s
     = ((writeLine ("Error when loading types registry file '" +:+ path +:+ "': "
                    +:+ message e +:+ ", " +:+ stack e) s).1,
        Normal ∅)).
Proof.
  split; [|split; [|split]].
  - apply (loadTypesRegistryFile_spec path s).
  - intros Hmissing.
    unfold loadTypesRegistryFile, mbind, M_bind, gets. rewrite Hmissing. simpl.
    rewrite writeLine_if_enabled_is_writeLine.
    pose proof (writeLine_returns
                  ("Types registry file '" +:+ path +:+ "' does not exist") s) as Hret.
    destruct (writeLine _ s) as [s1 c1]. simpl in Hret. by subst c1.
  - intros text props entries Hexists Hread Hparse Hentries Hmap.
    unfold loadTypesRegistryFile, mbind, M_bind, gets, try_catch, of_completion, parse_file.
    rewrite Hexists. simpl. rewrite Hread. simpl. rewrite Hparse. simpl.
    by rewrite Hentries, Hmap.
  - intros text e Hexists Hread Hparse.
    unfold loadTypesRegistryFile, mbind, M_bind, gets, try_catch, of_completion, parse_file.
    rewrite Hexists. simpl. rewrite Hread. simpl. rewrite Hparse.
    rewrite writeLine_if_enabled_is_writeLine.
    pose proof (writeLine_returns
                  ("Error when loading types registry file '" +:+ path +:+ "': "
                   +:+ message e +:+ ", " +:+ stack e) s) as Hret.
    destruct (writeLine _ s) as [s1 c1]. simpl in Hret. by subst c1.
Qed.

(** ** The path of the package manager *)

Lemma getDefaultNPMLocation_as_is (processName : string) :
  stringContains_space (getDefaultNPMLocation processName)
  && negb (starts_with dquote (getDefaultNPMLocation processName)) = false.
Proof.
  unfold getDefaultNPMLocation.
  destruct (String.prefix "node" (path_basename processName)); [|done].
  unfold quoted. simpl. by rewrite andb_false_r.
Qed.

(** C8.  The constructor stores the resolved path of the package manager
    wrapped in double quotes (a double quote, the path, a double quote)
    when it contains a space and does not begin with a double quote, and
    unchanged when it contains no space or already begins with a double
    quote, as the default location always does; the stored path is the
    executable that the constructor hands to the process launch. *)
Theorem npmPath_quoted_when_needed
    (cache safeList typesMap : string) (npmLocation : option string)
    (throttleLimit : Z) s :
  let resolved := resolved_npmLocation npmLocation in
  let s' := (NodeTypingsInstaller_constructor cache safeList typesMap npmLocation
               throttleLimit s).1 in
  (stringContains_space resolved = true ∧ starts_with dquote resolved = false →
   npmPath s' = String dquote (resolved +:+ String dquote EmptyString)) ∧
  (stringContains_space resolved = false ∨ starts_with dquote resolved = true →
   npmPath s' = resolved) ∧
  (npmLocation = None → npmPath s' = getDefaultNPMLocation process_argv0) ∧
  ∃ outcome,
    visible (new_events s s') = [ExecFile (npmPath s') registry_update_args cache outcome].
Proof.
  intros resolved s'.
  destruct (NodeTypingsInstaller_constructor_spec cache safeList typesMap npmLocation
              throttleLimit s) as (_ & Hnpm & _ & outcome & Hg & _).
  fold s' in Hnpm, Hg. fold resolved in Hnpm, Hg.
  split; [|split; [|split]].
  - intros [Hspace Hquote]. by rewrite Hnpm, Hspace, Hquote.
  - intros [Hspace | Hquote]; rewrite Hnpm.
    + by rewrite Hspace.
    + by rewrite Hquote, andb_false_r.
  - intros ->. rewrite Hnpm. subst resolved. simpl.
    by rewrite getDefaultNPMLocation_as_is.
  - exists outcome. rewrite Hnpm. by apply grows_new_events.
Qed.
(** ** Relations kept by the handling of requests *)

Section Frame.
Variable R : State W → State W → Prop.
Variable HR : frame R.

Lemma preserves_ret {A : Type} (a : A) : preserves R (mret a).
Proof using HR. intros s. apply (frame_refl R HR). Qed.

Lemma preserves_throw {A : Type} (e : JsError) : preserves R (throw (A := A) e).
Proof using HR. intros s. apply (frame_refl R HR). Qed.

Lemma preserves_gets {A : Type} (f : State W → A) : preserves R (gets f).
Proof using HR. intros s. apply (frame_refl R HR). Qed.

Lemma preserves_call {A : Type} (f : W → W * A) : preserves R (call f).
Proof using HR.
  intros s. unfold call. destruct (f (world s)) as [w a]. apply (frame_world R HR).
Qed.

Lemma preserves_bind {A B : Type} (m : M W A) (f : A → M W B) :
  preserves R m → (∀ a, preserves R (f a)) → preserves R (m ≫= f).
Proof using HR.
  intros Hm Hf s. specialize (Hm s). unfold mbind, M_bind.
  destruct (m s) as [s1 [a|e]]; [|exact Hm].
  apply (frame_trans R HR _ s1); [exact Hm | apply Hf].
Qed.

Lemma preserves_try_catch {A : Type} (body : M W A) (handler : JsError → M W A) :
  preserves R body → (∀ e, preserves R (handler e)) → preserves R (try_catch body handler).
Proof using HR.
  intros Hm Hf s. specialize (Hm s). unfold try_catch.
  destruct (body s) as [s1 [a|e]]; [exact Hm |].
  apply (frame_trans R HR _ s1); [exact Hm | apply Hf].
Qed.

Lemma preserves_if {A : Type} (b : bool) (m1 m2 : M W A) :
  preserves R m1 → preserves R m2 → preserves R (if b then m1 else m2).
Proof. by destruct b. Qed.

Lemma writeLine_if_enabled_preserves (text : string) :
  preserves R (writeLine_if_enabled text).
Proof using HR.
  apply preserves_bind; [apply preserves_gets |]. intros b.
  apply preserves_if; [apply (frame_writeLine R HR) | apply preserves_ret].
Qed.

Lemma sendResponse_preserves (response : Response) : preserves R (sendResponse response).
Proof using HR.
  unfold sendResponse.
  apply preserves_bind; [apply writeLine_if_enabled_preserves |]. intros _.
  apply preserves_bind; [intros s; apply (frame_send R HR) |]. intros _.
  apply writeLine_if_enabled_preserves.
Qed.

Lemma execFileSyncAndLog_preserves (file : string) (args : list string) (cwd : string) :
  preserves R (execFileSyncAndLog file args cwd).
Proof using HR.
  unfold execFileSyncAndLog, nodeExecFileSync.
  apply preserves_bind; [apply writeLine_if_enabled_preserves |]. intros _.
  apply preserves_bind.
  { apply preserves_bind; [apply preserves_call |]. intros outcome.
    apply preserves_bind; [intros s; apply (frame_exec R HR) |]. intros _.
    apply preserves_ret. }
  intros [stdout | error].
  - apply preserves_bind; [apply writeLine_if_enabled_preserves |]. intros _.
    apply preserves_ret.
  - assert (Hfield : ∀ str, preserves R (indent_field str)).
    { intros [text|]; [apply preserves_ret | apply preserves_throw]. }
    apply preserves_bind; [apply Hfield |]. intros out.
    apply preserves_bind; [apply Hfield |]. intros err.
    apply preserves_bind; [apply (frame_writeLine R HR) |]. intros _.
    apply preserves_ret.
Qed.

Lemma installWorker_preserves (requestId : Z) (packageNames : list string) (cwd : string)
    (onRequestCompleted : bool → M W ()) :
  (∀ success, preserves R (onRequestCompleted success)) →
  preserves R (installWorker requestId packageNames cwd onRequestCompleted).
Proof using HR.
  intros Hdone. unfold installWorker, installNpmPackages.
  apply preserves_bind; [apply writeLine_if_enabled_preserves |]. intros _.
  apply preserves_bind; [apply preserves_call |]. intros start.
  apply preserves_bind; [apply preserves_gets |]. intros npm.
  apply preserves_bind; [apply execFileSyncAndLog_preserves |]. intros hasError.
  apply preserves_bind; [apply preserves_gets |]. intros b.
  apply preserves_bind; [|intros _; apply Hdone].
  apply preserves_if; [|apply preserves_ret].
  apply preserves_bind; [apply preserves_call |]. intros finish.
  apply (frame_writeLine R HR).
Qed.

Lemma handle_preserves (req : Request) : preserves R (handle req).
Proof using HR.
  destruct req as [payload | payload | | fileName packageName projectName projectRootPath
                  | fileNameToRequire]; simpl.
  - apply preserves_bind; [apply preserves_call |]. intros ?. apply sendResponse_preserves.
  - apply preserves_bind; [apply preserves_call |]. intros ?. apply sendResponse_preserves.
  - apply preserves_bind; [apply preserves_gets |]. intros ?. apply sendResponse_preserves.
  - apply preserves_bind; [apply preserves_gets |]. intros found.
    apply preserves_if; [|apply sendResponse_preserves].
    apply installWorker_preserves. intros success. apply sendResponse_preserves.
  - apply preserves_bind; [apply preserves_call |]. intros ?. apply sendResponse_preserves.
Qed.

Lemma onMessage_preserves (req : Request) : preserves R (onMessage req).
Proof using HR.
  unfold onMessage, report_delayedInitializationError.
  apply preserves_bind; [|intros _; apply handle_preserves].
  apply preserves_bind; [apply preserves_gets |]. intros [msg|]; [|apply preserves_ret].
  apply preserves_bind; [apply sendResponse_preserves |]. intros _.
  intros s. apply (frame_settle R HR).
Qed.

Lemma on_uncaughtException_preserves (e : JsError) : preserves R (on_uncaughtException e).
Proof using HR.
  apply preserves_bind; [apply preserves_gets |]. intros b.
  apply preserves_if; [apply (frame_writeLine R HR) | apply preserves_throw].
Qed.

Lemma deliver_preserves (reqs : list Request) : preserves R (deliver reqs).
Proof using HR.
  induction reqs as [|req reqs IH]; [apply preserves_ret |].
  simpl. apply preserves_bind; [|intros _; exact IH].
  apply preserves_try_catch; [apply onMessage_preserves |].
  apply on_uncaughtException_preserves.
Qed.

Lemma pump_preserves (signals : list Signal) : preserves R (pump signals).
Proof using HR.
  induction signals as [|[req|] signals IH]; simpl.
  - apply preserves_ret.
  - apply preserves_bind; [|intros _; exact IH].
    apply preserves_try_catch; [apply onMessage_preserves |].
    apply on_uncaughtException_preserves.
  - apply preserves_bind; [apply writeLine_if_enabled_preserves |]. intros _.
    apply preserves_ret.
Qed.

Lemma loadTypesRegistryFile_preserves (path : string) :
  preserves R (loadTypesRegistryFile path).
Proof using HR.
  unfold loadTypesRegistryFile.
  apply preserves_bind; [apply preserves_gets |]. intros present.
  apply preserves_if.
  - apply preserves_bind; [apply writeLine_if_enabled_preserves |]. intros _.
    apply preserves_ret.
  - apply preserves_try_catch.
    + apply preserves_bind; [intros s; apply (frame_refl R HR) |]. intros content.
      apply preserves_bind; [intros s; apply (frame_refl R HR) |]. intros entries.
      intros s. apply (frame_refl R HR).
    + intros e. apply preserves_bind; [apply writeLine_if_enabled_preserves |]. intros _.
      apply preserves_ret.
Qed.
Lemma NodeTypingsInstaller_constructor_preserves
    (cache safeList typesMap : string) (npmLocation : option string) (throttleLimit : Z) :
  (∀ p s, R s (set_npmPath p s)) →
  (∀ registry s, R s (set_typesRegistry registry s)) →
  (∀ d s, R s (set_delayedInitializationError d s)) →
  preserves R (NodeTypingsInstaller_constructor cache safeList typesMap npmLocation
                 throttleLimit).
Proof using HR.
  intros Hnpm Hregistry Hdelayed. unfold NodeTypingsInstaller_constructor.
  apply preserves_bind; [intros s; apply (frame_world R HR) |]. intros _.
  apply preserves_bind; [intros s; apply Hnpm |]. intros _.
  apply preserves_bind; [apply preserves_gets |]. intros npm.
  apply preserves_bind.
  { apply preserves_if; [intros s; apply Hnpm | apply preserves_ret]. }
  intros _. apply preserves_bind; [apply preserves_gets |]. intros enabled.
  apply preserves_bind.
  { apply preserves_if; [|apply preserves_ret].
    apply preserves_bind; [apply (frame_writeLine R HR) |]. intros _.
    apply preserves_bind; [apply preserves_gets |]. intros npm'.
    apply (frame_writeLine R HR). }
  intros _. apply preserves_bind; [intros s; apply (frame_world R HR) |]. intros _.
  apply preserves_bind.
  { apply preserves_try_catch.
    - apply preserves_bind; [apply writeLine_if_enabled_preserves |]. intros _.
      apply preserves_bind; [apply preserves_gets |]. intros npm'.
      apply preserves_bind; [apply execFileSyncAndLog_preserves |]. intros _.
      apply writeLine_if_enabled_preserves.
    - intros e. apply preserves_bind; [apply writeLine_if_enabled_preserves |]. intros _.
      intros s. apply Hdelayed. }
  intros _. apply preserves_bind; [apply loadTypesRegistryFile_preserves |].
  intros registry s. apply Hregistry.
Qed.
End Frame.

(** ** The log and the settings of the installer *)

Lemma trace_new_events s s' evs : trace s' = trace s ++ evs → new_events s s' = evs.
Proof. intros Htr. unfold new_events. by rewrite Htr, drop_app_length. Qed.

Lemma appends_of_app evs1 evs2 :
  appends_of (evs1 ++ evs2) = appends_of evs1 ++ appends_of evs2.
Proof. apply omap_app. Qed.

Lemma log_kept_same s s' :
  logFile s' = logFile s → trace s' = trace s → log_kept s s'.
Proof.
  intros Hlog Htr. split; [by left |]. exists []. rewrite app_nil_r.
  split; [done | constructor].
Qed.

Lemma log_kept_event ev s : appends_of [ev] = [] → log_kept s (add_event ev s).
Proof.
  intros Hev. split; [by left |]. exists [ev]. split; [done |]. rewrite Hev. constructor.
Qed.

Lemma log_kept_frame : frame log_kept.
Proof.
  split.
  - intros s. by apply log_kept_same.
  - intros s1 s2 s3 (Hlog12 & evs1 & Htr1 & Hall1) (Hlog23 & evs2 & Htr2 & Hall2). split.
    + destruct Hlog23 as [-> | ->]; [done | by right].
    + exists (evs1 ++ evs2). rewrite Htr2, Htr1, app_assoc. split; [done |].
      rewrite appends_of_app. apply Forall_app. split; [done |].
      eapply Forall_impl; [exact Hall2 |]. intros entry Hentry. simpl in Hentry.
      destruct Hlog12 as [Heq | Hoff]; congruence.
  - intros w s. by apply log_kept_same.
  - intros r s. by apply log_kept_event.
  - intros file args cwd outcome s. by apply log_kept_event.
  - intros text s. unfold writeLine, mbind, M_bind, gets, call, emit, modify.
    destruct (logFile s) as [file|] eqn:Hlog; simpl; [|by apply log_kept_same].
    destruct (nowString (world s)) as [w now]; simpl.
    destruct (fs_appendFileSync file _ w) as [w' [[]|e]]; simpl.
    + split; [by left |]. eexists [_]. simpl. split; [done |].
      repeat constructor. by rewrite Hlog.
    + split; [by right |]. eexists [_]. simpl. split; [done |].
      repeat constructor. by rewrite Hlog.
  - intros s. by apply log_kept_same.
Qed.

Lemma settings_kept_frame : frame settings_kept.
Proof.
  split; try (intros; by repeat split).
  - intros s1 s2 s3 (?&?&?) (?&?&?). repeat split; congruence.
  - intros text s. destruct (writeLine_spec text s) as (_ & (?&?&_&?) & _).
    by repeat split.
Qed.

(** X2.  Whatever requests are delivered, the log stays on the file it was
    opened on or becomes disabled, and every write to a log file made on
    the way goes to that file.  So a disabled log stays disabled and
    nothing at all is written to a log file. *)
Theorem deliver_keeps_log (reqs : list Request) s :
  (logFile (deliver reqs s).1 = logFile s ∨ logFile (deliver reqs s).1 = None) ∧
  Forall (λ entry, logFile s = Some entry.1)
         (appends_of (new_events s (deliver reqs s).1)) ∧
  (logFile s = None →
   logFile (deliver reqs s).1 = None ∧ appends (deliver reqs s).1 = appends s).
Proof.
  destruct (deliver_preserves _ log_kept_frame reqs s) as (Hlog & evs & Htr & Hall).
  rewrite (trace_new_events _ _ _ Htr).
  split; [done |]. split; [done |]. intros Hoff. split.
  - destruct Hlog as [-> | ->]; done.
  - unfold appends. rewrite Htr, appends_of_app.
    destruct (appends_of evs) as [|entry entries]; [by rewrite app_nil_r |].
    apply Forall_cons in Hall as [Hentry _]. congruence.
Qed.

(** X3.  The same holds for the constructor: its log lines go to the file
    the log was opened on, and with a disabled log it writes nothing. *)
Theorem NodeTypingsInstaller_constructor_keeps_log
    (cache safeList typesMap : string) (npmLocation : option string)
    (throttleLimit : Z) s :
  let s' := (NodeTypingsInstaller_constructor cache safeList typesMap npmLocation
               throttleLimit s).1 in
  (logFile s' = logFile s ∨ logFile s' = None) ∧
  Forall (λ entry, logFile s = Some entry.1) (appends_of (new_events s s')) ∧
  (logFile s = None → logFile s' = None ∧ appends s' = appends s).
Proof.
  intros s'.
  destruct (NodeTypingsInstaller_constructor_preserves _ log_kept_frame
              cache safeList typesMap npmLocation throttleLimit
              ltac:(intros; by apply log_kept_same)
              ltac:(intros; by apply log_kept_same)
              ltac:(intros; by apply log_kept_same) s) as (Hlog & evs & Htr & Hall).
  fold s' in Hlog, Htr. rewrite (trace_new_events _ _ _ Htr).
  split; [done |]. split; [done |]. intros Hoff. split.
  - destruct Hlog as [-> | ->]; done.
  - unfold appends. rewrite Htr, appends_of_app.
    destruct (appends_of evs) as [|entry entries]; [by rewrite app_nil_r |].
    apply Forall_cons in Hall as [Hentry _]. congruence.
Qed.

(** X4.  No request changes the settings of the installer: after any
    sequence of requests, also one during which handlers raise, the path
    of the package manager and the registry are the ones the constructor
    stored. *)
Theorem deliver_keeps_settings (reqs : list Request) s :
  npmPath (deliver reqs s).1 = npmPath s ∧
  typesRegistry (deliver reqs s).1 = typesRegistry s ∧
  uncaughtExceptionListener (deliver reqs s).1 = uncaughtExceptionListener s.
Proof. apply (deliver_preserves _ settings_kept_frame reqs s). Qed.

(** ** The handlers of the requests *)

(** X1.  [sendResponse] returns, whether the log is enabled, disabled or
    failing; it hands the response to [process.send] exactly once, launches
    nothing and leaves the fields of the installer as they are. *)
Theorem sendResponse_sends_once (response : Response) s :
  (sendResponse response s).2 = Normal tt ∧
  sent (sendResponse response s).1 = sent s ++ [response] ∧
  launches (sendResponse response s).1 = launches s ∧
  keeps s (sendResponse response s).1.
Proof.
  destruct (sendResponse_spec response s) as (Hret & Hk & Hg).
  split; [done |]. rewrite (grows_sent _ _ _ Hg), (grows_launches _ _ _ Hg).
  simpl. by rewrite app_nil_r.
Qed.

(** X5.  A [typesRegistry] request is answered, after the report of a
    pending initialization failure if any, by one response that carries the
    registry of the installer: every key other than ["__proto__"] has in the
    response the value it has in the registry.  Nothing is launched. *)
Theorem typesRegistry_request_serves_registry s :
  ∃ served,
    (onMessage TypesRegistryRequest s).2 = Normal tt ∧
    sent (onMessage TypesRegistryRequest s).1
    = sent s ++ pending_report s ++ [TypesRegistryResponse served] ∧
    (∀ key, key ≠ "__proto__" → served !! key = typesRegistry s !! key) ∧
    launches (onMessage TypesRegistryRequest s).1 = launches s.
Proof.
  exists (delete "__proto__" (typesRegistry s)).
  cut (wp (onMessage TypesRegistryRequest) s (λ s' c,
         c = Normal tt ∧
         grows s s' ((Send <$> pending_report s)
                     ++ [Send (TypesRegistryResponse (delete "__proto__" (typesRegistry s)))]))).
  { unfold wp. intros (Hret & Hg). split; [done |].
    rewrite (grows_sent _ _ _ Hg), (grows_launches _ _ _ Hg).
    rewrite sent_of_app, sent_of_Send. split; [done |].
    split; [intros key Hkey; by rewrite lookup_delete_ne |].
    unfold launches_of. rewrite omap_app. simpl.
    assert (Hnone : ∀ rs : list Response,
              omap (λ ev, match ev with ExecFile f a c _ => Some (f, a, c) | _ => None end)
                   (Send <$> rs) = []).
    { intros rs. induction rs as [|r rs IH]; [done | exact IH]. }
    by rewrite Hnone, app_nil_r. }
  unfold onMessage.
  eapply wp_bind, wp_wand; [apply report_delayedInitializationError_spec |].
  intros s1 ? (-> & Hs1 & Hg1). simpl.
  apply wp_bind, wp_gets.
  eapply wp_wand; [apply sendResponse_spec |]. intros s2 ? (-> & Hk2 & Hg2).
  split; [done |]. destruct Hs1 as (_ & Hreg & _). simpl in Hg2. rewrite Hreg in Hg2.
  by eapply grows_trans.
Qed.

Lemma handle_installPackage_chosen
    (fileName packageName projectName : string) (projectRootPath : option string)
    (cwd : string) s :
  or_else (getDirectoryOfPackageJson fileName (world s)) projectRootPath = Some cwd →
  cwd ≠ EmptyString →
  handle (InstallPackageRequest fileName packageName projectName projectRootPath) s
  = installWorker (-1) [packageName] cwd (λ success : bool,
      sendResponse
        (PackageInstalledResponse projectName success
           (if success then "Package " +:+ packageName +:+ " installed."
            else "There was an error installing " +:+ packageName +:+ "."))) s.
Proof.
  intros Hcwd Hne. unfold handle, mbind, M_bind, gets. rewrite Hcwd. simpl.
  apply String.eqb_neq in Hne. by rewrite Hne.
Qed.

(** The launch of an [installPackage] request whose working directory is
    [cwd]: one launch of the stored package manager, for the one package,
    in [cwd]; then the response, unless the executor throws. *)
Lemma handle_installPackage_run
    (fileName packageName projectName : string) (projectRootPath : option string)
    (cwd : string) s :
  or_else (getDirectoryOfPackageJson fileName (world s)) projectRootPath = Some cwd →
  cwd ≠ EmptyString →
  wp (handle (InstallPackageRequest fileName packageName projectName projectRootPath)) s
    (λ s' c, ∃ outcome,
       match executor_result outcome with
       | Normal failed =>
           c = Normal tt ∧
           grows s s'
             [ExecFile (npmPath s) ["install"; "--ignore-scripts"; packageName] cwd outcome;
              Send (PackageInstalledResponse projectName (negb failed)
                      (if negb failed then "Package " +:+ packageName +:+ " installed."
                       else "There was an error installing " +:+ packageName +:+ "."))]
       | Throw e =>
           c = Throw e ∧
           grows s s'
             [ExecFile (npmPath s) ["install"; "--ignore-scripts"; packageName] cwd outcome]
       end).
Proof.
  intros Hcwd Hne. unfold wp.
  rewrite (handle_installPackage_chosen _ _ _ _ _ _ Hcwd Hne).
  apply installWorker_spec. intros s1 outcome Hk1 Hg1.
  destruct (executor_result outcome) as [failed|e] eqn:Hres.
  - eapply wp_wand; [apply sendResponse_spec |]. intros s2 ? (-> & Hk2 & Hg2).
    exists outcome. rewrite Hres. split; [done |]. grows_tac.
  - exists outcome. rewrite Hres. split; [done |]. exact Hg1.
Qed.

(** X6.  When the nearest ancestor directory of the file that holds the
    project manifest is not the empty relative path, an [installPackage]
    request launches the package manager exactly once, in that directory,
    for the one package, and this whether or not the request brings a
    project root path.  (The empty directory is falsy at line 152 and
    makes the handler fall back on the project root path.) *)
Theorem installPackage_launches_in_manifest_directory
    (fileName packageName projectName directory : string)
    (projectRootPath : option string) s :
  getDirectoryOfPackageJson fileName (world s) = Some directory →
  directory ≠ EmptyString →
  launches (handle (InstallPackageRequest fileName packageName projectName
                      projectRootPath) s).1
  = launches s ++ [(npmPath s, ["install"; "--ignore-scripts"; packageName], directory)].
Proof.
  intros Hfound Hne.
  assert (Hcwd : or_else (getDirectoryOfPackageJson fileName (world s)) projectRootPath
                 = Some directory).
  { rewrite Hfound. unfold or_else. simpl.
    apply String.eqb_neq in Hne. by rewrite Hne. }
  destruct (handle_installPackage_run fileName packageName projectName projectRootPath
              directory s Hcwd Hne) as (outcome & Hrun).
  destruct (executor_result outcome); destruct Hrun as (_ & Hg);
    by rewrite (grows_launches _ _ _ Hg).
Qed.

(** X7.  When no ancestor directory holds the manifest (or only the empty
    relative directory does), the request falls back on the project root
    path it brings, if that is not empty: the package manager is launched
    exactly once, in that directory. *)
Theorem installPackage_falls_back_on_root_path
    (fileName packageName projectName root : string) s :
  getDirectoryOfPackageJson fileName (world s) = None ∨
  getDirectoryOfPackageJson fileName (world s) = Some EmptyString →
  root ≠ EmptyString →
  launches (handle (InstallPackageRequest fileName packageName projectName
                      (Some root)) s).1
  = launches s ++ [(npmPath s, ["install"; "--ignore-scripts"; packageName], root)].
Proof.
  intros Hfound Hne.
  assert (Hcwd : or_else (getDirectoryOfPackageJson fileName (world s)) (Some root)
                 = Some root).
  { by destruct Hfound as [-> | ->]. }
  destruct (handle_installPackage_run fileName packageName projectName (Some root)
              root s Hcwd Hne) as (outcome & Hrun).
  destruct (executor_result outcome); destruct Hrun as (_ & Hg);
    by rewrite (grows_launches _ _ _ Hg).
Qed.

(** X8.  The response to an [installPackage] request mirrors the launch:
    when the command returns, the response reports success with the message
    "Package <name> installed."; when the command fails and the error
    carries its output, it reports failure with the message "There was an
    error installing <name>."; both for the project of the request.  When
    the error carries no output, the handler raises and sends nothing. *)
Theorem installPackage_response_mirrors_launch
    (fileName packageName projectName cwd : string)
    (projectRootPath : option string) s :
  or_else (getDirectoryOfPackageJson fileName (world s)) projectRootPath = Some cwd →
  cwd ≠ EmptyString →
  let run := handle (InstallPackageRequest fileName packageName projectName
                       projectRootPath) s in
  ∃ outcome,
    outcomes_of (new_events s run.1) = [outcome] ∧
    match outcome with
    | ExecReturn _ =>
        run.2 = Normal tt ∧
        sent run.1 = sent s ++ [PackageInstalledResponse projectName true
                                  ("Package " +:+ packageName +:+ " installed.")]
    | ExecThrow error =>
        match exec_stdout error, exec_stderr error with
        | Some _, Some _ =>
            run.2 = Normal tt ∧
            sent run.1
            = sent s ++ [PackageInstalledResponse projectName false
                           ("There was an error installing " +:+ packageName +:+ ".")]
        | _, _ =>
            run.2 = Throw (TypeError_property "replace") ∧ sent run.1 = sent s
        end
    end.
Proof.
  intros Hcwd Hne run.
  destruct (handle_installPackage_run fileName packageName projectName projectRootPath
              cwd s Hcwd Hne) as (outcome & Hrun).
  fold run in Hrun. exists outcome.
  destruct outcome as [stdout | error]; simpl in Hrun.
  - destruct Hrun as (Hret & Hg).
    rewrite (grows_outcomes _ _ _ Hg), (grows_sent _ _ _ Hg). done.
  - destruct (exec_stdout error), (exec_stderr error); destruct Hrun as (Hret & Hg);
      rewrite (grows_outcomes _ _ _ Hg), (grows_sent _ _ _ Hg); simpl;
      by rewrite ?app_nil_r.
Qed.

(** X9.  An empty project root path counts as none: when no ancestor
    directory holds the manifest, a request that brings the empty path is
    answered by the failure response "Could not determine a project root
    path." and nothing is launched. *)
Theorem installPackage_empty_root_path
    (fileName packageName projectName : string) s :
  getDirectoryOfPackageJson fileName (world s) = None →
  let run := handle (InstallPackageRequest fileName packageName projectName
                       (Some EmptyString)) s in
  run.2 = Normal tt ∧
  sent run.1 = sent s ++ [PackageInstalledResponse projectName false
                            "Could not determine a project root path."] ∧
  launches run.1 = launches s.
Proof.
  intros Hnone run.
  assert (Hrun : run = sendResponse (PackageInstalledResponse projectName false
                                       "Could not determine a project root path.") s).
  { subst run. unfold handle, mbind, M_bind, gets. by rewrite Hnone. }
  rewrite Hrun.
  destruct (sendResponse_spec (PackageInstalledResponse projectName false
              "Could not determine a project root path.") s) as (Hret & _ & Hg).
  split; [done |]. rewrite (grows_sent _ _ _ Hg), (grows_launches _ _ _ Hg).
  simpl. by rewrite app_nil_r.
Qed.

(** X10.  An [inspectValue] request is answered by one response that
    carries what [inspectModule] returns for the file of the request, as it
    is; nothing is launched. *)
Theorem inspectValue_relays_result (fileNameToRequire : string) s :
  let run := handle (InspectValueRequest fileNameToRequire) s in
  run.2 = Normal tt ∧
  sent run.1
  = sent s ++ [InspectValueResponse (inspectModule fileNameToRequire (world s)).2] ∧
  launches run.1 = launches s.
Proof.
  intros run.
  cut (wp (handle (InspectValueRequest fileNameToRequire)) s (λ s' c,
         c = Normal tt ∧
         grows s s' [Send (InspectValueResponse
                             (inspectModule fileNameToRequire (world s)).2)])).
  { unfold wp. fold run. intros (Hret & Hg). split; [done |].
    rewrite (grows_sent _ _ _ Hg), (grows_launches _ _ _ Hg). simpl.
    by rewrite app_nil_r. }
  simpl. apply wp_bind, wp_call.
  eapply wp_wand; [apply sendResponse_spec |]. intros s1 ? (-> & Hk1 & Hg1).
  split; [done |]. grows_tac.
Qed.

(** ** The process under exceptions and at the loss of the channel *)

Lemma deliver_cons (req : Request) (reqs : list Request) :
  deliver (req :: reqs)
  = (try_catch (onMessage req) on_uncaughtException ≫= λ _, deliver reqs).
Proof. reflexivity. Qed.

Lemma guarded_onMessage_returns (req : Request) s :
  uncaughtExceptionListener s = true →
  (try_catch (onMessage req) on_uncaughtException s).2 = Normal tt ∧
  uncaughtExceptionListener (try_catch (onMessage req) on_uncaughtException s).1 = true.
Proof.
  intros Hlisten.
  pose proof (onMessage_preserves _ settings_kept_frame req s) as (_ & _ & Hkept).
  unfold try_catch. destruct (onMessage req s) as [s1 [[]|e]]; simpl in *.
  - split; [done | congruence].
  - unfold on_uncaughtException, mbind, M_bind, gets. rewrite Hkept, Hlisten.
    destruct (writeLine_spec ("Unhandled exception: " +:+ Error_toString e
                              +:+ " at " +:+ stack e) s1) as (Hret & (_ & _ & _ & Hl) & _).
    split; [done | congruence].
Qed.

Lemma guarded_deliver_returns (reqs : list Request) s :
  uncaughtExceptionListener s = true → (deliver reqs s).2 = Normal tt.
Proof.
  revert s. induction reqs as [|req reqs IH]; intros s Hlisten; [done |].
  rewrite deliver_cons. unfold mbind, M_bind.
  destruct (guarded_onMessage_returns req s Hlisten) as (Hret & Hlisten').
  destruct (try_catch (onMessage req) on_uncaughtException s) as [s1 c].
  simpl in *. subst c. by apply IH.
Qed.


(** A handler of this file that returns has sent one response, and one
    that raises has sent none. *)
Lemma handle_responds (req : Request) s :
  answered_by_listener req = true →
  wp (handle req) s (λ s' c,
    ∃ vis, grows s s' vis ∧
           match c with
           | Normal _ => length (sent_of vis) = 1
           | Throw _ => sent_of vis = []
           end).
Proof.
  intros Hhere.
  destruct req as [payload | payload | | fileName packageName projectName projectRootPath
                  | fileNameToRequire]; [discriminate Hhere | discriminate Hhere | | |];
    simpl.
  - apply wp_bind, wp_gets.
    eapply wp_wand; [apply sendResponse_spec |]. intros s1 ? (-> & Hk1 & Hg1).
    eexists. split; [grows_tac | done].
  - apply wp_bind, wp_gets.
    destruct (truthy (or_else _ projectRootPath)).
    + apply installWorker_spec. intros s1 outcome Hk1 Hg1.
      destruct (executor_result outcome) as [failed|e].
      * eapply wp_wand; [apply sendResponse_spec |]. intros s2 ? (-> & Hk2 & Hg2).
        eexists. split; [grows_tac | done].
      * eexists. split; [exact Hg1 | done].
    + eapply wp_wand; [apply sendResponse_spec |]. intros s1 ? (-> & Hk1 & Hg1).
      eexists. split; [grows_tac | done].
  - apply wp_bind, wp_call.
    eapply wp_wand; [apply sendResponse_spec |]. intros s1 ? (-> & Hk1 & Hg1).
    eexists. split; [grows_tac | done].
Qed.

Lemma wp_and {A : Type} (m : M W A) s (Q1 Q2 : State W → Completion A → Prop) :
  wp m s Q1 → wp m s Q2 → wp m s (λ s' c, Q1 s' c ∧ Q2 s' c).
Proof. unfold wp. auto. Qed.

Lemma onMessage_responds (req : Request) s :
  answered_by_listener req = true →
  wp (onMessage req) s (λ s' c,
    settled s s' ∧
    ∃ vis, grows s s' ((Send <$> pending_report s) ++ vis) ∧
           match c with
           | Normal _ => length (sent_of vis) = 1
           | Throw _ => sent_of vis = []
           end).
Proof.
  intros Hhere. unfold onMessage.
  eapply wp_bind, wp_wand; [apply report_delayedInitializationError_spec |].
  intros s1 ? (-> & Hs1 & Hg1).
  eapply wp_wand;
    [apply (wp_and _ _ _ _ (handle_spec req s1) (handle_responds req s1 Hhere)) |].
  intros s2 c ((Hk2 & _) & vis & Hg2 & Hresp).
  split; [by eapply settled_keeps |].
  exists vis. split; [by eapply grows_trans | done].
Qed.

Lemma deliver_responds (reqs : list Request) s :
  forallb answered_by_listener reqs = true →
  wp (deliver reqs) s (λ s' c,
    ∃ vis rest,
      grows s s' vis ∧ sent_of vis = first_report s reqs ++ rest ∧
      length rest ≤ length reqs ∧
      (uncaughtExceptionListener s = false → c = Normal tt →
       length rest = length reqs)).
Proof.
  revert s. induction reqs as [|req reqs IH]; intros s Hhere.
  { apply wp_ret. exists [], []. split; [apply grows_refl | done]. }
  simpl in Hhere. apply andb_prop in Hhere as [Hreq Hreqs].
  simpl. apply wp_bind, wp_try_catch.
  eapply wp_wand; [by apply onMessage_responds |].
  intros s1 c1 ((_ & _ & Hlisten1 & Hnone1) & vis1 & Hg1 & Hresp1).
  assert (Hnext : ∀ s2, keeps s1 s2 → grows s1 s2 [] →
            wp (deliver reqs) s2 (λ s' c,
              ∃ vis rest,
                grows s s' vis ∧ sent_of vis = pending_report s ++ sent_of vis1 ++ rest ∧
                length rest ≤ length reqs ∧
                (uncaughtExceptionListener s = false → c = Normal tt →
                 length rest = length reqs))).
  { intros s2 (_ & _ & Hdel2 & Hlisten2) Hg2. eapply wp_wand; [by apply IH |].
    intros s3 c3 (vis3 & rest3 & Hg3 & Hsent3 & Hlen3 & Hall3).
    rewrite first_report_settled in Hsent3 by congruence. simpl in Hsent3.
    exists (((Send <$> pending_report s) ++ vis1) ++ [] ++ vis3), rest3.
    split.
    { eapply grows_trans; [exact Hg1 |]. eapply grows_trans; [exact Hg2 | exact Hg3]. }
    simpl. rewrite !sent_of_app, sent_of_Send, Hsent3, <- app_assoc.
    split; [done |]. split; [done |]. intros Hoff. apply Hall3. congruence. }
  destruct c1 as [[]|e].
  - eapply wp_wand; [apply (Hnext s1 (keeps_refl _) (grows_refl _)) |].
    intros s3 c3 (vis & rest & Hg & Hsent & Hlen & Hall).
    exists vis, (sent_of vis1 ++ rest). simpl.
    split; [done |]. split; [done |]. rewrite length_app, Hresp1. simpl.
    split; [lia |]. intros Hoff Hret. rewrite (Hall Hoff Hret). done.
  - rewrite Hresp1 in Hnext. apply wp_bind, wp_gets.
    destruct (uncaughtExceptionListener s1) eqn:Hlisten.
    + eapply wp_wand; [apply writeLine_spec |].
      intros s2 ? (-> & Hk2 & Hg2 & _).
      eapply wp_wand; [apply (Hnext s2 Hk2 Hg2) |].
      intros s3 c3 (vis & rest & Hg & Hsent & Hlen & Hall).
      exists vis, rest. simpl in *.
      split; [done |]. split; [done |]. split; [lia |]. intros Hoff. congruence.
    + apply wp_throw. exists ((Send <$> pending_report s) ++ vis1), [].
      split; [done |]. simpl. rewrite sent_of_app, sent_of_Send, Hresp1.
      split; [done |]. split; [lia |]. intros _ [=].
Qed.

(** X12.  For requests of the kinds that the listener answers with code
    of this file ([typesRegistry], [installPackage], [inspectValue]):
    whatever the launches do, the responses sent while they are delivered
    are the report of a pending initialization failure, if one is due,
    followed by at most one response per request.  When no
    [uncaughtException] listener is registered and the delivery ends
    without an exception, there is a response for every request. *)
Theorem deliver_at_most_one_response_per_request (reqs : list Request) s :
  forallb answered_by_listener reqs = true →
  ∃ rest,
    sent (deliver reqs s).1 = sent s ++ first_report s reqs ++ rest ∧
    length rest ≤ length reqs ∧
    (uncaughtExceptionListener s = false → (deliver reqs s).2 = Normal tt →
     length rest = length reqs).
Proof.
  intros Hhere.
  destruct (deliver_responds reqs s Hhere) as (vis & rest & Hg & Hsent & Hlen & Hall).
  exists rest. by rewrite (grows_sent _ _ _ Hg), Hsent.
Qed.

(** X13.  The loss of the channel ends the process with exit code 0.  The
    requests that arrived before it are handled as ever; the listener of
    [disconnect] itself sends nothing and launches nothing, and whatever is
    queued after the loss is never handled. *)
Theorem pump_stops_at_disconnect (before : list Request) (after : list Signal) s :
  (deliver before s).2 = Normal tt →
  (pump ((Message <$> before) ++ Disconnect :: after) s).2 = Normal (Some 0%Z) ∧
  sent (pump ((Message <$> before) ++ Disconnect :: after) s).1
  = sent (deliver before s).1 ∧
  launches (pump ((Message <$> before) ++ Disconnect :: after) s).1
  = launches (deliver before s).1.
Proof.
  revert s. induction before as [|req before IH]; intros s Hret.
  - simpl. unfold on_disconnect.
    cut (wp (writeLine_if_enabled "Parent process has exited, shutting down..."
             ≫= λ _, mret (Some 0%Z)) s (λ s' c, c = Normal (Some 0%Z) ∧ grows s s' [])).
    { unfold wp. intros (Hc & Hg). split; [done |].
      rewrite (grows_sent _ _ _ Hg), (grows_launches _ _ _ Hg). simpl.
      by rewrite !app_nil_r. }
    eapply wp_bind, wp_wand; [apply writeLine_if_enabled_spec |].
    intros s1 ? (-> & _ & Hg1). by apply wp_ret.
  - rewrite deliver_cons in Hret |- *. simpl. unfold mbind, M_bind in *.
    destruct (try_catch (onMessage req) on_uncaughtException s) as [s1 [[]|e]];
      [|discriminate].
    by apply IH.
Qed.

(** ** More on the logger, the executor, the loader and the constructor *)

Lemma writeLine_if_enabled_disabled (text : string) s :
  logFile s = None → writeLine_if_enabled text s = (s, Normal tt).
Proof. intros Hoff. by rewrite writeLine_if_enabled_is_writeLine, writeLine_disabled. Qed.

(** X14.  An enabled [writeLine] attempts exactly one write, to the file of
    the log: the text between the time stamp in brackets and the line
    separator.  The log stays enabled exactly when the write succeeds. *)
Theorem writeLine_writes_one_line (text file : string) s :
  logFile s = Some file →
  appends (writeLine text s).1
  = appends s ++ [(file, "[" +:+ (nowString (world s)).2 +:+ "] " +:+ text
                         +:+ sys_newLine)] ∧
  logFile (writeLine text s).1
  = (if write_fails text s then None else Some file).
Proof.
  intros Hlog. unfold write_fails, writeLine, mbind, M_bind, gets, call, emit, modify.
  rewrite Hlog. simpl. destruct (nowString (world s)) as [w now]. simpl.
  destruct (fs_appendFileSync file _ w) as [w' [[]|e]]; simpl;
    unfold appends, appends_of; simpl; by rewrite omap_app.
Qed.

(** X15.  The loader only reads: with the log disabled it leaves the whole
    state as it is, whatever the file holds. *)
Theorem loadTypesRegistryFile_reads_only (path : string) s :
  logFile s = None → (loadTypesRegistryFile path s).1 = s.
Proof.
  intros Hoff. unfold loadTypesRegistryFile, mbind, M_bind, gets, try_catch, of_completion.
  destruct (sys_fileExists path (world s)); simpl.
  - destruct (parse_file path (world s)) as [content|e]; simpl.
    + destruct (get_entries content) as [entries|e]; simpl.
      * destruct (createMapFromTemplate entries) as [registry|e]; simpl; [done |].
        by rewrite writeLine_if_enabled_disabled.
      * by rewrite writeLine_if_enabled_disabled.
    + by rewrite writeLine_if_enabled_disabled.
  - by rewrite writeLine_if_enabled_disabled.
Qed.

Lemma writeLine_if_enabled_run (text : string) s :
  writeLine_if_enabled text s = ((writeLine text s).1, Normal tt).
Proof.
  rewrite writeLine_if_enabled_is_writeLine.
  pose proof (writeLine_returns text s) as Hret.
  destruct (writeLine text s) as [s1 c1]. simpl in Hret. by subst c1.
Qed.

(** X16.  A registry file whose text is the JSON value [null] gives the
    empty registry: reading [entries] off [null] raises a [TypeError],
    which is caught and handed to the logger with its message and stack. *)
Theorem loadTypesRegistryFile_null_content (path text : string) s :
  sys_fileExists path (world s) = true →
  sys_readFile path (world s) = Some text →
  JSON_parse text = Normal JNull →
  loadTypesRegistryFile path s
  = ((writeLine ("Error when loading types registry file '" +:+ path +:+ "': "
                 +:+ message (TypeError_property "entries") +:+ ", "
                 +:+ stack (TypeError_property "entries")) s).1,
     Normal ∅).
Proof.
  intros Hexists Hread Hparse.
  unfold loadTypesRegistryFile, mbind, M_bind, gets, try_catch, of_completion, parse_file.
  rewrite Hexists. simpl. rewrite Hread. simpl. rewrite Hparse. simpl.
  by rewrite writeLine_if_enabled_run.
Qed.

(** X20.  A registry file that exists but cannot be read gives the empty
    registry: [JSON.parse] is handed [undefined], reads it as the text
    "undefined" and raises; the error is caught and handed to the logger. *)
Theorem loadTypesRegistryFile_unreadable (path : string) (e : JsError) s :
  sys_fileExists path (world s) = true →
  sys_readFile path (world s) = None →
  JSON_parse "undefined" = Throw e →
  loadTypesRegistryFile path s
  = ((writeLine ("Error when loading types registry file '" +:+ path +:+ "': "
                 +:+ message e +:+ ", " +:+ stack e) s).1,
     Normal ∅).
Proof.
  intros Hexists Hread Hparse.
  unfold loadTypesRegistryFile, mbind, M_bind, gets, try_catch, of_completion, parse_file.
  rewrite Hexists. simpl. rewrite Hread. simpl. rewrite Hparse.
  by rewrite writeLine_if_enabled_run.
Qed.

Lemma match_newline_without_LF (str : string) :
  count_char LF str = 0 → match_newline str = None.
Proof.
  induction str as [|c str IH]; simpl; [done |].
  destruct (Ascii.eqb c LF) eqn:Hc; [lia |]. simpl. intros Hcount.
  destruct (Ascii.eqb c CR && starts_with LF str) eqn:Hcr.
  - apply andb_prop in Hcr as [_ Hs]. apply starts_with_tail in Hs.
    rewrite Hs in Hcount. simpl in Hcount. lia.
  - by rewrite IH.
Qed.

(** X17.  A text without a line feed, the empty text included, is left as
    it is by [indent], which only puts the line separator and the
    indentation before it; a carriage return that no line feed follows is
    not a line break. *)
Theorem indent_single_line (newline str : string) :
  count_char LF str = 0 → indent newline str = (newline +:+ "    ") +:+ str.
Proof.
  intros Hcount. unfold indent, replace_newline.
  by rewrite match_newline_without_LF.
Qed.

Lemma writeLine_trace (text file : string) s :
  logFile s = Some file →
  writeLine text s
  = ((writeLine text s).1, Normal tt) ∧
  trace (writeLine text s).1
  = trace s ++ [AppendFile file ("[" +:+ (nowString (world s)).2 +:+ "] " +:+ text
                                +:+ sys_newLine)].
Proof.
  intros Hlog. unfold writeLine, mbind, M_bind, gets, call, emit, modify.
  rewrite Hlog. simpl. destruct (nowString (world s)) as [w now]. simpl.
  by destruct (fs_appendFileSync file _ w) as [w' [[]|e]].
Qed.

(** X18.  With the log enabled, the executor writes the command line to
    the log before it launches the command: the first thing it does is the
    write of the line "Exec: <file> <arguments>", and the launch comes
    after it. *)
Theorem execFileSyncAndLog_logs_before_launch
    (file : string) (args : list string) (cwd logPath : string) s :
  logFile s = Some logPath →
  ∃ evs outcome,
    new_events s (execFileSyncAndLog file args cwd s).1
    = AppendFile logPath ("[" +:+ (nowString (world s)).2 +:+ "] "
                          +:+ ("Exec: " +:+ file +:+ " " +:+ String.concat " " args)
                          +:+ sys_newLine) :: evs ∧
    visible evs = [ExecFile file args cwd outcome].
Proof.
  intros Hlog.
  destruct (execFileSyncAndLog_spec file args cwd s) as (outcome & _ & (evs0 & Htr0 & Hvis0) & _).
  destruct (writeLine_trace ("Exec: " +:+ file +:+ " " +:+ String.concat " " args)
              logPath s Hlog) as (Hrun & Htr1).
  assert (Hrest : ∃ evs, trace (execFileSyncAndLog file args cwd s).1
                         = trace (writeLine ("Exec: " +:+ file +:+ " "
                                             +:+ String.concat " " args) s).1 ++ evs).
  { unfold execFileSyncAndLog. unfold mbind at 1. unfold M_bind at 1.
    rewrite writeLine_if_enabled_is_writeLine, Hrun. cbn [fst snd].
    match goal with
    | |- ∃ evs, trace (fst (?m ?s1)) = _ =>
        assert (Hkept : preserves log_kept m)
    end.
    { apply (preserves_bind _ log_kept_frame).
      - unfold nodeExecFileSync.
        apply (preserves_bind _ log_kept_frame);
          [apply (preserves_call _ log_kept_frame) |]. intros o.
        apply (preserves_bind _ log_kept_frame);
          [intros s2; apply (frame_exec _ log_kept_frame) |]. intros _.
        apply (preserves_ret _ log_kept_frame).
      - intros [stdout | error].
        + apply (preserves_bind _ log_kept_frame);
            [apply (writeLine_if_enabled_preserves _ log_kept_frame) |]. intros _.
          apply (preserves_ret _ log_kept_frame).
        + assert (Hfield : ∀ str, preserves log_kept (indent_field str)).
          { intros [text|];
              [apply (preserves_ret _ log_kept_frame)
              | apply (preserves_throw _ log_kept_frame)]. }
          apply (preserves_bind _ log_kept_frame); [apply Hfield |]. intros out.
          apply (preserves_bind _ log_kept_frame); [apply Hfield |]. intros err.
          apply (preserves_bind _ log_kept_frame);
            [apply (frame_writeLine _ log_kept_frame) |]. intros _.
          apply (preserves_ret _ log_kept_frame). }
    destruct (Hkept (writeLine ("Exec: " +:+ file +:+ " " +:+ String.concat " " args) s).1)
      as (_ & evs & Htr & _).
    by exists evs. }
  destruct Hrest as (evs & Htr). rewrite Htr1, <- app_assoc in Htr.
  rewrite Htr0 in Htr. apply app_inv_head in Htr.
  change ([?a] ++ evs) with (a :: evs) in Htr. subst evs0.
  exists evs, outcome. split.
  - by apply trace_new_events.
  - by rewrite visible_cons in Hvis0.
Qed.

(** The constructor up to the loading of the registry: the path of the
    package manager is stored and the update of the registry package has
    been launched, once. *)
Lemma NodeTypingsInstaller_constructor_then_load
    (cache safeList typesMap : string) (npmLocation : option string)
    (throttleLimit : Z) s (Q : State W → Completion () → Prop) :
  let resolved := resolved_npmLocation npmLocation in
  let final := if stringContains_space resolved && negb (starts_with dquote resolved)
               then quoted resolved else resolved in
  (∀ s1 outcome,
     grows s s1 [ExecFile final registry_update_args cache outcome] →
     wp (loadTypesRegistryFile (getTypesRegistryFileLocation cache)
         ≫= λ registry, modify (set_typesRegistry registry)) s1 Q) →
  wp (NodeTypingsInstaller_constructor cache safeList typesMap npmLocation throttleLimit)
     s Q.
Proof.
  intros resolved final Hload. unfold NodeTypingsInstaller_constructor.
  apply wp_bind, wp_run. apply wp_bind, wp_modify. apply wp_bind, wp_gets. simpl.
  fold resolved.
  set (s0 := set_npmPath resolved _).
  eapply wp_bind, (wp_wand _ _ (λ s' c,
    c = Normal tt ∧ npmPath s' = final ∧ grows s s' [])).
  { subst final. destruct (stringContains_space resolved && negb _).
    - apply wp_modify. repeat split. exists []. simpl. by rewrite app_nil_r.
    - apply wp_ret. repeat split. exists []. simpl. by rewrite app_nil_r. }
  clearbody final. clear s0. intros s1 ? (-> & Hnpm1 & Hg1).
  apply wp_bind. unfold isEnabled. apply wp_gets.
  eapply wp_bind, (wp_wand _ _ (λ s' c, c = Normal tt ∧ keeps s1 s' ∧ grows s1 s' [])).
  { destruct (logFile s1).
    - eapply wp_bind, wp_wand; [apply writeLine_spec |]. intros s2 ? (-> & Hk2 & Hg2 & _).
      apply wp_bind, wp_gets.
      eapply wp_wand; [apply writeLine_spec |]. intros s3 ? (-> & Hk3 & Hg3 & _).
      split; [done |]. split; [keeps_tac | grows_tac].
    - apply wp_ret. split; [done |]. split; [keeps_tac | grows_tac]. }
  intros s2 ? (-> & Hk2 & Hg2).
  apply wp_bind, wp_run. set (s3 := set_world _ s2).
  assert (Hk3 : keeps s1 s3). { subst s3. keeps_tac. }
  assert (Hg3 : grows s1 s3 []). { subst s3. grows_tac. }
  clearbody s3. clear s2 Hk2 Hg2.
  eapply wp_bind, (wp_wand _ _ (λ s' c,
    c = Normal tt ∧
    ∃ outcome, grows s s' [ExecFile final registry_update_args cache outcome])).
  { apply wp_try_catch.
    eapply wp_bind, wp_wand; [apply writeLine_if_enabled_spec |].
    intros s4 ? (-> & Hk4 & Hg4). apply wp_bind, wp_gets.
    eapply wp_bind, wp_wand; [apply execFileSyncAndLog_spec |].
    intros s5 c (outcome & Hk5 & Hg5 & ->).
    assert (Hnpm4 : npmPath s4 = final).
    { destruct Hk3 as (? & _), Hk4 as (? & _). congruence. }
    rewrite Hnpm4 in Hg5.
    assert (Hg : grows s s5 [ExecFile final registry_update_args cache outcome]).
    { grows_tac. }
    clear Hk3 Hg3 Hk4 Hg4 Hk5 Hg5 Hnpm4.
    destruct (executor_result outcome) as [failed|e].
    - eapply wp_wand; [apply writeLine_if_enabled_spec |].
      intros s6 ? (-> & Hk6 & Hg6). split; [done |]. exists outcome. grows_tac.
    - eapply wp_bind, wp_wand; [apply writeLine_if_enabled_spec |].
      intros s6 ? (-> & Hk6 & Hg6). apply wp_modify. split; [done |]. exists outcome.
      destruct Hg as (evs & Htr & Hvis), Hg6 as (evs6 & Htr6 & Hvis6).
      exists (evs ++ evs6). simpl. rewrite Htr6, Htr, app_assoc, visible_app, Hvis, Hvis6.
      done. }
  intros s4 ? (-> & outcome & Hg4). by apply (Hload s4 outcome).
Qed.

(** X19.  The constructor reads the registry after it has run the update
    of the registry package: the registry it stores is what
    [loadTypesRegistryFile] returns for the index file of the registry
    package under the cache location, read in the state that the update
    launch has left. *)
Theorem NodeTypingsInstaller_constructor_loads_after_update
    (cache safeList typesMap : string) (npmLocation : option string)
    (throttleLimit : Z) s :
  let resolved := resolved_npmLocation npmLocation in
  let final := if stringContains_space resolved && negb (starts_with dquote resolved)
               then quoted resolved else resolved in
  ∃ s1 s2 outcome registry,
    visible (new_events s s1) = [ExecFile final registry_update_args cache outcome] ∧
    loadTypesRegistryFile
      (combinePaths (normalizeSlashes cache) "node_modules/types-registry/index.json") s1
    = (s2, Normal registry) ∧
    NodeTypingsInstaller_constructor cache safeList typesMap npmLocation throttleLimit s
    = (set_typesRegistry registry s2, Normal tt).
Proof.
  intros resolved final.
  pose proof (NodeTypingsInstaller_constructor_then_load cache safeList typesMap
    npmLocation throttleLimit s
    (λ s' c, ∃ s1 s2 outcome registry,
       visible (new_events s s1) = [ExecFile final registry_update_args cache outcome] ∧
       loadTypesRegistryFile (getTypesRegistryFileLocation cache) s1 = (s2, Normal registry) ∧
       (s', c) = (set_typesRegistry registry s2, Normal tt))) as Hspec.
  unfold wp in Hspec.
  destruct (NodeTypingsInstaller_constructor cache safeList typesMap npmLocation
              throttleLimit s) as [s' c].
  apply Hspec. clear Hspec. intros s1 outcome Hg1.
  destruct (loadTypesRegistryFile_spec (getTypesRegistryFileLocation cache) s1)
    as ([registry Hret] & _).
  unfold mbind, M_bind.
  destruct (loadTypesRegistryFile (getTypesRegistryFileLocation cache) s1)
    as [s2 c2] eqn:Hload.
  simpl in Hret. subst c2. simpl.
  exists s1, s2, outcome, registry. split; [by apply grows_new_events | done].
Qed.

(** X21.  The resolver looks at nothing but the manifests of the ancestor
    directories: in two worlds that agree on which ancestor directories of
    the file hold a manifest, it gives the same answer. *)
Theorem getDirectoryOfPackageJson_depends_on_manifests (fileName : string) (w1 w2 : W) :
  (∀ k, hasManifest (ancestor k fileName) w1 = hasManifest (ancestor k fileName) w2) →
  getDirectoryOfPackageJson fileName w1 = getDirectoryOfPackageJson fileName w2.
Proof.
  intros Hsame.
  pose proof (getDirectoryOfPackageJson_first fileName w1) as H1.
  pose proof (getDirectoryOfPackageJson_first fileName w2) as H2.
  destruct (getDirectoryOfPackageJson fileName w1) as [d1|],
           (getDirectoryOfPackageJson fileName w2) as [d2|]; [| | |done].
  - destruct H1 as (k1 & -> & Hk1 & Hbelow1), H2 as (k2 & -> & Hk2 & Hbelow2).
    destruct (Nat.lt_trichotomy k1 k2) as [Hlt | [-> | Hlt]]; [|done|].
    + rewrite Hsame, (Hbelow2 k1 Hlt) in Hk1. discriminate.
    + rewrite <- Hsame, (Hbelow1 k2 Hlt) in Hk2. discriminate.
  - destruct H1 as (k1 & -> & Hk1 & _). rewrite Hsame, H2 in Hk1. discriminate.
  - destruct H2 as (k2 & -> & Hk2 & _). rewrite <- Hsame, H1 in Hk2. discriminate.
Qed.

(** X22.  A worker that is started with a log file registers the
    [uncaughtException] listener, and the constructor keeps it: whatever
    requests it then receives, and however their launches end, the delivery
    never ends the process. *)
Theorem started_with_log_survives
    (logFilePath cache safeList typesMap : string) (npmLocation : option string)
    (w : W) (reqs : list Request) :
  (deliver reqs (startup (Some logFilePath) cache safeList typesMap npmLocation w).1).2
  = Normal tt.
Proof.
  apply guarded_deliver_returns. unfold startup.
  by destruct (NodeTypingsInstaller_constructor_spec cache safeList typesMap npmLocation 5
                 (boot (Some logFilePath) w)) as (_ & _ & -> & _).
Qed.

(** X23.  The constructor always completes, and it records an
    initialization failure only when the executor raises: an update whose
    command returns, or fails with its output (the executor returns
    [true], which the constructor does not look at), leaves the pending
    failure as it was; an update that fails without output records the
    message of the [TypeError] raised in the executor. *)
Theorem NodeTypingsInstaller_constructor_records_only_exceptions
    (cache safeList typesMap : string) (npmLocation : option string)
    (throttleLimit : Z) s :
  let run := NodeTypingsInstaller_constructor cache safeList typesMap npmLocation
               throttleLimit s in
  ∃ outcome,
    run.2 = Normal tt ∧
    outcomes_of (new_events s run.1) = [outcome] ∧
    delayedInitializationError run.1
    = match outcome with
      | ExecReturn _ => delayedInitializationError s
      | ExecThrow error =>
          match exec_stdout error, exec_stderr error with
          | Some _, Some _ => delayedInitializationError s
          | _, _ => Some (message (TypeError_property "replace"))
          end
      end.
Proof.
  intros run.
  destruct (NodeTypingsInstaller_constructor_spec cache safeList typesMap npmLocation
              throttleLimit s) as (Hc & _ & _ & outcome & Hg & Hdel).
  fold run in Hc, Hg, Hdel. exists outcome. split; [done |].
  split; [by rewrite (grows_outcomes _ _ _ Hg) |].
  rewrite Hdel. destruct outcome as [stdout|error]; simpl; [done |].
  by destruct (exec_stdout error), (exec_stderr error).
Qed.

(** X24.  The path that the constructor stores never needs quoting again:
    it contains no space or begins with a double quote, whatever location
    was passed. *)
Theorem npmPath_needs_no_quoting
    (cache safeList typesMap : string) (npmLocation : option string)
    (throttleLimit : Z) s :
  let stored := npmPath (NodeTypingsInstaller_constructor cache safeList typesMap
                           npmLocation throttleLimit s).1 in
  stringContains_space stored && negb (starts_with dquote stored) = false.
Proof.
  intros stored.
  destruct (NodeTypingsInstaller_constructor_spec cache safeList typesMap npmLocation
              throttleLimit s) as (_ & Hnpm & _).
  fold stored in Hnpm. rewrite Hnpm.
  destruct (stringContains_space (resolved_npmLocation npmLocation)
            && negb (starts_with dquote (resolved_npmLocation npmLocation))) eqn:Hneeds.
  - unfold quoted. simpl. by rewrite andb_false_r.
  - done.
Qed.

End Facts.

(** ** Runs on the sample platform *)

Example pending_state_has_failure :
  delayedInitializationError Sim.pending_state
  = Some "Cannot read property 'replace' of undefined" ∧ sent Sim.pending_state = [].
Proof. by vm_compute. Qed.

(** C1, as stated, fails where no request ever arrives: the constructor
    has stored a failure, nothing is delivered, and nothing is sent, not
    even the report of the failure. *)
Lemma response_count_counterexample :
  ¬ @response_count_as_specified Sim.World Sim.nospawn Sim.collaborators []
      Sim.pending_state.
Proof. unfold response_count_as_specified. vm_compute. discriminate. Qed.

Lemma deliver_one_response_per_request_witness :
  forallb reports_output
    (outcomes_of
       (new_events Sim.pending_state
          (@deliver Sim.World Sim.ok Sim.collaborators Sim.two_requests
             Sim.pending_state).1)) = true ∧
  (@deliver Sim.World Sim.ok Sim.collaborators Sim.two_requests Sim.pending_state).2
  = Normal tt ∧
  ∃ rs,
    sent (@deliver Sim.World Sim.ok Sim.collaborators Sim.two_requests
            Sim.pending_state).1
    = sent Sim.pending_state ++ first_report Sim.pending_state Sim.two_requests ++ rs ∧
    Forall2 (λ req r, answers req r = true) Sim.two_requests rs ∧
    Forall (λ r, is_initializationFailed r = false) rs ∧
    length (sent (@deliver Sim.World Sim.ok Sim.collaborators Sim.two_requests
                    Sim.pending_state).1)
    = length (sent Sim.pending_state) + length Sim.two_requests
      + length (first_report Sim.pending_state Sim.two_requests).
Proof.
  split; [by vm_compute |].
  apply (@deliver_one_response_per_request Sim.World Sim.ok Sim.collaborators
           Sim.two_requests Sim.pending_state).
  by vm_compute.
Defined.

Example two_requests_after_failed_start :
  sent (@deliver Sim.World Sim.ok Sim.collaborators Sim.two_requests Sim.pending_state).1
  = [InitializationFailedResponse "Cannot read property 'replace' of undefined";
     TypesRegistryResponse {[ "lodash" := Sim.lodash_entry ]};
     PackageInstalledResponse "proj" true "Package lodash installed."].
Proof. by vm_compute. Qed.

Lemma installPackage_without_project_root_witness :
  (∀ k, @hasManifest Sim.World Sim.ok (ancestor k "/x/y/file.ts")
          (world (@report_delayedInitializationError Sim.World Sim.ok Sim.collaborators
                    Sim.silent).1) = false) ∧
  ∃ s',
    @onMessage Sim.World Sim.ok Sim.collaborators
      (InstallPackageRequest "/x/y/file.ts" "lodash" "proj" None) Sim.silent
    = (s', Normal tt) ∧
    sent s' = sent Sim.silent ++ pending_report Sim.silent
              ++ [PackageInstalledResponse "proj" false
                    "Could not determine a project root path."] ∧
    launches s' = launches Sim.silent.
Proof.
  assert (Hnone : ∀ k, @hasManifest Sim.World Sim.ok (ancestor k "/x/y/file.ts")
            (world (@report_delayedInitializationError Sim.World Sim.ok Sim.collaborators
                      Sim.silent).1) = false).
  { intros k.
    exact (@getDirectoryOfPackageJson_first Sim.World Sim.ok "/x/y/file.ts" Sim.world0 k). }
  split; [exact Hnone |].
  exact (@installPackage_without_project_root Sim.World Sim.ok Sim.collaborators
           "/x/y/file.ts" "lodash" "proj" Sim.silent Hnone).
Defined.

Lemma initialization_failure_reported_once_witness :
  Sim.two_requests ≠ [] ∧
  delayedInitializationError
    (@deliver Sim.World Sim.ok Sim.collaborators Sim.two_requests Sim.pending_state).1
  = None.
Proof.
  assert (Hsome : Sim.two_requests ≠ []) by (unfold Sim.two_requests; discriminate).
  split; [exact Hsome |].
  destruct (@initialization_failure_reported_once Sim.World Sim.ok Sim.collaborators
              Sim.two_requests Sim.pending_state) as (_ & Hafter & _).
  exact (Hafter Hsome).
Defined.

(** C4.  On the sample platform the executor returns [false] when the
    command exits with 0 and [true] when it exits with another code and the
    error carries its output.  When the command cannot be spawned, so that
    the error carries no output, the executor does not return [true]: the
    [TypeError] raised by [indent] inside its [catch] block leaves it, with
    the log enabled or not. *)
Theorem execFileSyncAndLog_raises_when_not_spawned :
  (@execFileSyncAndLog Sim.World Sim.ok Sim.collaborators
     "npm" ["install"; "lodash"] "/a/b" Sim.logging).2 = Normal false ∧
  (@execFileSyncAndLog Sim.World Sim.exits Sim.collaborators
     "npm" ["install"; "lodash"] "/a/b" Sim.logging).2 = Normal true ∧
  (@execFileSyncAndLog Sim.World Sim.nospawn Sim.collaborators
     "npm" ["install"; "lodash"] "/a/b" Sim.logging).2
  = Throw (@TypeError_property Sim.World Sim.nospawn "replace") ∧
  (@execFileSyncAndLog Sim.World Sim.nospawn Sim.collaborators
     "npm" ["install"; "lodash"] "/a/b" Sim.silent).2
  = Throw (@TypeError_property Sim.World Sim.nospawn "replace").
Proof. by vm_compute. Qed.

(** C5.  On the sample platform the worker launches the install command
    once, with both package names and the working directory.  When the
    command exits with a code other than 0, the completion callback runs
    once, with [false].  When the command cannot be spawned, the exception
    of the executor leaves the worker and the completion callback never
    runs. *)
Theorem installWorker_abandons_callback_when_not_spawned :
  let notify := λ success : bool,
    emit (Send (PackageInstalledResponse "proj" success "completed")) in
  let before := Sim.started Sim.succeeds None (Some "npm") in
  let failed := @installWorker Sim.World Sim.exits Sim.collaborators
                  7 ["lodash"; "react"] "/a/b" notify before in
  let raised := @installWorker Sim.World Sim.nospawn Sim.collaborators
                  7 ["lodash"; "react"] "/a/b" notify before in
  (failed.2 = Normal tt ∧
   launches_of (new_events before failed.1)
   = [("npm", ["install"; "--ignore-scripts"; "lodash"; "react"], "/a/b")] ∧
   sent_of (new_events before failed.1)
   = [PackageInstalledResponse "proj" false "completed"]) ∧
  (raised.2 = Throw (@TypeError_property Sim.World Sim.nospawn "replace") ∧
   launches_of (new_events before raised.1)
   = [("npm", ["install"; "--ignore-scripts"; "lodash"; "react"], "/a/b")] ∧
   sent_of (new_events before raised.1) = []).
Proof. by vm_compute. Qed.

Lemma loadTypesRegistryFile_result_witness :
  @loadTypesRegistryFile Sim.World Sim.ok Sim.collaborators Sim.registry_path Sim.silent
  = (Sim.silent, Normal {[ "lodash" := Sim.lodash_entry ]}).
Proof.
  destruct (@loadTypesRegistryFile_result Sim.World Sim.ok Sim.collaborators
              Sim.registry_path Sim.silent) as (_ & _ & Hwell & _).
  apply (Hwell Sim.registry_text
           {[ "entries" := JObj {[ "lodash" := Sim.lodash_entry ]} ]}
           {[ "lodash" := Sim.lodash_entry ]}); by vm_compute.
Defined.

Example loadTypesRegistryFile_missing :
  (@loadTypesRegistryFile Sim.World Sim.ok Sim.collaborators "/nowhere/index.json"
     Sim.silent).2 = Normal ∅.
Proof. by vm_compute. Qed.

Example loadTypesRegistryFile_malformed :
  (@loadTypesRegistryFile Sim.World Sim.ok Sim.collaborators "/a/b/package.json"
     Sim.logging).2 = Normal ∅ ∧
  appends (@loadTypesRegistryFile Sim.World Sim.ok Sim.collaborators "/a/b/package.json"
             Sim.logging).1
  = [("/log",
      "[0] Error when loading types registry file '/a/b/package.json': "
      +:+ "Unexpected token in JSON, SyntaxError: at JSON.parse" +:+ nl)].
Proof. by vm_compute. Qed.

Lemma getDirectoryOfPackageJson_nearest_witness :
  @getDirectoryOfPackageJson Sim.World Sim.ok "/a/b/c/file.ts" Sim.world0 = Some "/a/b".
Proof.
  apply (proj1 (@getDirectoryOfPackageJson_nearest Sim.World Sim.ok
                  "/a/b/c/file.ts" Sim.world0)).
  exists 1. split; [reflexivity |]. split; [reflexivity |].
  intros [|j] Hj; [reflexivity | lia].
Defined.

Lemma npmPath_quoted_when_needed_witness :
  npmPath (Sim.started Sim.succeeds None (Some "C:\Program Files\npm"))
  = String dquote ("C:\Program Files\npm" +:+ String dquote EmptyString).
Proof.
  apply (@npmPath_quoted_when_needed Sim.World Sim.ok Sim.collaborators
           "/cache" "" "" (Some "C:\Program Files\npm") 5 Sim.silent).
  split; reflexivity.
Defined.

Example npmPath_without_space :
  npmPath (Sim.started Sim.succeeds None (Some "/usr/local/bin/npm")) = "/usr/local/bin/npm".
Proof. reflexivity. Qed.

Example npmPath_already_quoted :
  npmPath (Sim.started Sim.succeeds None
             (Some (String dquote ("C:\Program Files\npm" +:+ String dquote EmptyString))))
  = String dquote ("C:\Program Files\npm" +:+ String dquote EmptyString).
Proof. reflexivity. Qed.

Example npmPath_default :
  npmPath (Sim.started Sim.succeeds None None)
  = String dquote ("/usr/bin/npm" +:+ String dquote EmptyString).
Proof. reflexivity. Qed.

Lemma FileLog_disabled_after_failure_witness :
  @write_fails Sim.World Sim.ok Sim.collaborators "hello" Sim.logging_full_disk = true ∧
  ∃ s',
    @writeLine Sim.World Sim.ok Sim.collaborators "hello" Sim.logging_full_disk
    = (s', Normal tt) ∧
    isEnabled s' = (s', Normal false) ∧
    ∀ texts,
      @writeLines Sim.World Sim.ok Sim.collaborators texts s' = (s', Normal tt) ∧
      isEnabled (@writeLines Sim.World Sim.ok Sim.collaborators texts s').1
      = (s', Normal false).
Proof.
  split; [reflexivity |].
  apply (proj2 (@FileLog_disabled_after_failure Sim.World Sim.ok Sim.collaborators
                  "hello" Sim.logging_full_disk)).
  reflexivity.
Defined.

(** ** Runs for the further properties *)

Lemma deliver_keeps_log_witness :
  logFile Sim.ready = None ∧
  logFile (@deliver Sim.World Sim.exits Sim.collaborators Sim.two_requests Sim.ready).1
  = None ∧
  appends (@deliver Sim.World Sim.exits Sim.collaborators Sim.two_requests Sim.ready).1
  = appends Sim.ready.
Proof.
  split; [reflexivity |].
  apply (@deliver_keeps_log Sim.World Sim.exits Sim.collaborators
           Sim.two_requests Sim.ready).
  reflexivity.
Defined.

Lemma NodeTypingsInstaller_constructor_keeps_log_witness :
  logFile Sim.silent = None ∧
  logFile (@NodeTypingsInstaller_constructor Sim.World Sim.exits Sim.collaborators
             "/cache" "" "" None 5 Sim.silent).1 = None ∧
  appends (@NodeTypingsInstaller_constructor Sim.World Sim.exits Sim.collaborators
             "/cache" "" "" None 5 Sim.silent).1 = appends Sim.silent.
Proof.
  split; [reflexivity |].
  apply (@NodeTypingsInstaller_constructor_keeps_log Sim.World Sim.exits Sim.collaborators
           "/cache" "" "" None 5 Sim.silent).
  reflexivity.
Defined.

Lemma installPackage_launches_in_manifest_directory_witness :
  launches (@handle Sim.World Sim.exits Sim.collaborators
              (InstallPackageRequest "/a/b/c/file.ts" "lodash" "proj" (Some "/elsewhere"))
              Sim.ready).1
  = launches Sim.ready ++ [("npm", ["install"; "--ignore-scripts"; "lodash"], "/a/b")].
Proof.
  apply (@installPackage_launches_in_manifest_directory Sim.World Sim.exits
           Sim.collaborators "/a/b/c/file.ts" "lodash" "proj" "/a/b" (Some "/elsewhere")
           Sim.ready).
  - reflexivity.
  - discriminate.
Defined.

Lemma installPackage_falls_back_on_root_path_witness :
  launches (@handle Sim.World Sim.ok Sim.collaborators
              (InstallPackageRequest "/x/y/file.ts" "lodash" "proj" (Some "/proj"))
              Sim.ready).1
  = launches Sim.ready ++ [("npm", ["install"; "--ignore-scripts"; "lodash"], "/proj")].
Proof.
  apply (@installPackage_falls_back_on_root_path Sim.World Sim.ok Sim.collaborators
           "/x/y/file.ts" "lodash" "proj" "/proj" Sim.ready).
  - left. reflexivity.
  - discriminate.
Defined.

Lemma installPackage_response_mirrors_launch_witness :
  ∃ outcome,
    outcomes_of
      (new_events Sim.ready
         (@handle Sim.World Sim.exits Sim.collaborators
            (InstallPackageRequest "/a/b/c/file.ts" "lodash" "proj" None) Sim.ready).1)
    = [outcome] ∧
    match outcome with
    | ExecReturn _ =>
        (@handle Sim.World Sim.exits Sim.collaborators
           (InstallPackageRequest "/a/b/c/file.ts" "lodash" "proj" None) Sim.ready).2
        = Normal tt ∧
        sent (@handle Sim.World Sim.exits Sim.collaborators
                (InstallPackageRequest "/a/b/c/file.ts" "lodash" "proj" None) Sim.ready).1
        = sent Sim.ready ++ [PackageInstalledResponse "proj" true
                               ("Package " +:+ "lodash" +:+ " installed.")]
    | ExecThrow error =>
        match exec_stdout error, exec_stderr error with
        | Some _, Some _ =>
            (@handle Sim.World Sim.exits Sim.collaborators
               (InstallPackageRequest "/a/b/c/file.ts" "lodash" "proj" None) Sim.ready).2
            = Normal tt ∧
            sent (@handle Sim.World Sim.exits Sim.collaborators
                    (InstallPackageRequest "/a/b/c/file.ts" "lodash" "proj" None)
                    Sim.ready).1
            = sent Sim.ready ++ [PackageInstalledResponse "proj" false
                                   ("There was an error installing " +:+ "lodash" +:+ ".")]
        | _, _ =>
            (@handle Sim.World Sim.exits Sim.collaborators
               (InstallPackageRequest "/a/b/c/file.ts" "lodash" "proj" None) Sim.ready).2
            = Throw (@TypeError_property Sim.World Sim.exits "replace") ∧
            sent (@handle Sim.World Sim.exits Sim.collaborators
                    (InstallPackageRequest "/a/b/c/file.ts" "lodash" "proj" None)
                    Sim.ready).1
            = sent Sim.ready
        end
    end.
Proof.
  apply (@installPackage_response_mirrors_launch Sim.World Sim.exits Sim.collaborators
           "/a/b/c/file.ts" "lodash" "proj" "/a/b" None Sim.ready).
  - reflexivity.
  - discriminate.
Defined.

Example installPackage_failure_message :
  sent (@handle Sim.World Sim.exits Sim.collaborators
          (InstallPackageRequest "/a/b/c/file.ts" "lodash" "proj" None) Sim.ready).1
  = [PackageInstalledResponse "proj" false "There was an error installing lodash."].
Proof. by vm_compute. Qed.

Lemma installPackage_empty_root_path_witness :
  (@handle Sim.World Sim.ok Sim.collaborators
     (InstallPackageRequest "/x/y/file.ts" "lodash" "proj" (Some "")) Sim.ready).2
  = Normal tt ∧
  sent (@handle Sim.World Sim.ok Sim.collaborators
          (InstallPackageRequest "/x/y/file.ts" "lodash" "proj" (Some "")) Sim.ready).1
  = sent Sim.ready ++ [PackageInstalledResponse "proj" false
                         "Could not determine a project root path."] ∧
  launches (@handle Sim.World Sim.ok Sim.collaborators
              (InstallPackageRequest "/x/y/file.ts" "lodash" "proj" (Some ""))
              Sim.ready).1
  = launches Sim.ready.
Proof.
  apply (@installPackage_empty_root_path Sim.World Sim.ok Sim.collaborators
           "/x/y/file.ts" "lodash" "proj" Sim.ready).
  reflexivity.
Defined.


(** Without the listener, the first handler that raises ends the run: the
    registry request behind it is never answered. *)
Example deliver_dies_without_listener :
  (@deliver Sim.World Sim.nospawn Sim.collaborators
     [InstallPackageRequest "/a/b/c/file.ts" "lodash" "proj" None; TypesRegistryRequest]
     Sim.ready).2
  = Throw (@TypeError_property Sim.World Sim.nospawn "replace") ∧
  sent (@deliver Sim.World Sim.nospawn Sim.collaborators
          [InstallPackageRequest "/a/b/c/file.ts" "lodash" "proj" None; TypesRegistryRequest]
          Sim.ready).1 = [].
Proof. by vm_compute. Qed.

(** With the listener, the request behind the one that raised is
    answered. *)
Example deliver_goes_on_with_listener :
  sent (@deliver Sim.World Sim.nospawn Sim.collaborators
          [InstallPackageRequest "/a/b/c/file.ts" "lodash" "proj" None; TypesRegistryRequest]
          Sim.ready_logging).1
  = [TypesRegistryResponse {[ "lodash" := Sim.lodash_entry ]}].
Proof. by vm_compute. Qed.

Lemma deliver_at_most_one_response_per_request_witness :
  ∃ rest,
    sent (@deliver Sim.World Sim.ok Sim.collaborators Sim.two_requests Sim.ready).1
    = sent Sim.ready ++ first_report Sim.ready Sim.two_requests ++ rest ∧
    length rest ≤ length Sim.two_requests ∧
    (uncaughtExceptionListener Sim.ready = false →
     (@deliver Sim.World Sim.ok Sim.collaborators Sim.two_requests Sim.ready).2
     = Normal tt →
     length rest = length Sim.two_requests).
Proof.
  apply (@deliver_at_most_one_response_per_request Sim.World Sim.ok Sim.collaborators
           Sim.two_requests Sim.ready).
  reflexivity.
Defined.

Lemma pump_stops_at_disconnect_witness :
  (@pump Sim.World Sim.ok Sim.collaborators
     ((Message <$> Sim.two_requests) ++ Disconnect :: [Message TypesRegistryRequest])
     Sim.ready).2 = Normal (Some 0%Z) ∧
  sent (@pump Sim.World Sim.ok Sim.collaborators
          ((Message <$> Sim.two_requests) ++ Disconnect :: [Message TypesRegistryRequest])
          Sim.ready).1
  = sent (@deliver Sim.World Sim.ok Sim.collaborators Sim.two_requests Sim.ready).1 ∧
  launches (@pump Sim.World Sim.ok Sim.collaborators
              ((Message <$> Sim.two_requests) ++ Disconnect :: [Message TypesRegistryRequest])
              Sim.ready).1
  = launches (@deliver Sim.World Sim.ok Sim.collaborators Sim.two_requests Sim.ready).1.
Proof.
  apply (@pump_stops_at_disconnect Sim.World Sim.ok Sim.collaborators
           Sim.two_requests [Message TypesRegistryRequest] Sim.ready).
  reflexivity.
Defined.

Lemma writeLine_writes_one_line_witness :
  appends (@writeLine Sim.World Sim.ok Sim.collaborators "hello" Sim.logging).1
  = appends Sim.logging ++ [("/log", "[0] hello" +:+ nl)] ∧
  logFile (@writeLine Sim.World Sim.ok Sim.collaborators "hello" Sim.logging).1
  = Some "/log".
Proof.
  apply (@writeLine_writes_one_line Sim.World Sim.ok Sim.collaborators
           "hello" "/log" Sim.logging).
  reflexivity.
Defined.

Lemma loadTypesRegistryFile_reads_only_witness :
  (@loadTypesRegistryFile Sim.World Sim.ok Sim.collaborators "/a/b/package.json"
     Sim.silent).1 = Sim.silent.
Proof.
  apply (@loadTypesRegistryFile_reads_only Sim.World Sim.ok Sim.collaborators).
  reflexivity.
Defined.

Lemma loadTypesRegistryFile_null_content_witness :
  @loadTypesRegistryFile Sim.World Sim.parses_null Sim.collaborators Sim.registry_path
    Sim.null_registry
  = (Sim.null_registry, Normal ∅).
Proof.
  apply (@loadTypesRegistryFile_null_content Sim.World Sim.parses_null Sim.collaborators
           Sim.registry_path "null" Sim.null_registry); reflexivity.
Defined.

Lemma loadTypesRegistryFile_unreadable_witness :
  @loadTypesRegistryFile Sim.World Sim.ok Sim.collaborators "/a/b/package.json"
    Sim.silent
  = (Sim.silent, Normal ∅).
Proof.
  apply (@loadTypesRegistryFile_unreadable Sim.World Sim.ok Sim.collaborators
           "/a/b/package.json" Sim.syntax_error Sim.silent); reflexivity.
Defined.

Lemma indent_single_line_witness :
  indent nl "added 1 package" = (nl +:+ "    ") +:+ "added 1 package".
Proof. apply (indent_single_line nl "added 1 package"). reflexivity. Defined.

Lemma execFileSyncAndLog_logs_before_launch_witness :
  ∃ evs outcome,
    new_events Sim.logging
      (@execFileSyncAndLog Sim.World Sim.ok Sim.collaborators
         "npm" ["install"; "lodash"] "/a/b" Sim.logging).1
    = AppendFile "/log"
        ("[" +:+ (@nowString Sim.World Sim.collaborators (world Sim.logging)).2 +:+ "] "
         +:+ ("Exec: " +:+ "npm" +:+ " " +:+ String.concat " " ["install"; "lodash"])
         +:+ @sys_newLine Sim.World Sim.ok) :: evs ∧
    visible evs = [ExecFile "npm" ["install"; "lodash"] "/a/b" outcome].
Proof.
  apply (@execFileSyncAndLog_logs_before_launch Sim.World Sim.ok Sim.collaborators
           "npm" ["install"; "lodash"] "/a/b" "/log" Sim.logging).
  reflexivity.
Defined.

Lemma getDirectoryOfPackageJson_depends_on_manifests_witness :
  @getDirectoryOfPackageJson Sim.World Sim.ok "/a/b/c/file.ts" Sim.world0
  = @getDirectoryOfPackageJson Sim.World Sim.ok "/a/b/c/file.ts" Sim.full_disk.
Proof.
  apply (@getDirectoryOfPackageJson_depends_on_manifests Sim.World Sim.ok).
  intros k. reflexivity.
Defined.

(** An update of the registry package that exits with a non-zero status is
    not recorded as an initialization failure. *)
Example NodeTypingsInstaller_constructor_ignores_exit_status :
  delayedInitializationError (Sim.started Sim.exits_nonzero None (Some "npm")) = None.
Proof. by vm_compute. Qed.
